(** * Phrase Cards: the card store and the trimmed-playback monitor

    A shallow embedding of [src/app.js].  The IndexedDB object stores are
    finite maps, JavaScript objects that the code mutates in place live in
    an explicit heap of references, and the [<audio>] element is a record
    carrying its playhead, its [timeupdate] listeners and a log of the
    calls the application made on it. *)

From Stdlib Require Import QArith.
From stdpp Require Import gmap strings list fin_maps pretty sorting.

Local Open Scope Z_scope.
Local Open Scope string_scope.

(** ** JavaScript values *)

(** The result of [parseFloat]: a finite number or [NaN].  The values of
    [<input type=number>] fields and the playhead are finite, so numbers
    are rationals and only their order is used. *)
Inductive jsnum : Type :=
| NaN
| Num (q : Q).

(** [x || 0]: [NaN] and zero are falsy. *)
Definition or_zero (x : jsnum) : Q :=
  match x with
  | NaN => 0%Q
  | Num q => q
  end.

(** [a <= b] and [a < b] on numbers. *)
Definition js_le (a b : Q) : bool := Qle_bool a b.
Definition js_lt (a b : Q) : bool := negb (Qle_bool b a).

(** [s || undefined] on a string: the empty string is falsy. *)
Definition or_undefined (s : string) : option string :=
  if decide (s = "") then None else Some s.

(** ** Data model *)

Inductive Status : Type := not_started | in_progress | mastered.

Inductive Mode : Type := circleOfFifths_mode | chromatic_mode | free_mode.

Record Trim : Type := mkTrim { startSec : Q; endSec : Q }.

Record Mastery : Type := mkMastery { circleOfFifths : Status; chromatic : Status }.

(** A practice session.  [temposAchieved] is [None] when the property is
    not an array ([Array.isArray] fails). *)
Record Session : Type := mkSession {
  session_id : string;
  cardId : string;
  date : Z;
  temposAchieved : option (list Z);
  errorRate : Q;
  mode : Mode;
  notes : option string
}.

(** A card object.  Optional properties are [None] when [undefined];
    [audioBlobId] is [Some ""] on a card built by the add form. *)
Record Card : Type := mkCard {
  id : string;
  title : string;
  source : option string;
  createdAt : Z;
  updatedAt : Z;
  audioBlobId : option string;
  trim : option Trim;
  bpmTarget : option Z;
  comments : option string;
  tags : list string;
  mastery : Mastery;
  sessions : option (list Session)
}.

(** Property assignments [card.f = v]. *)
Definition set_updatedAt (v : Z) (c : Card) : Card :=
  mkCard (id c) (title c) (source c) (createdAt c) v (audioBlobId c)
         (trim c) (bpmTarget c) (comments c) (tags c) (mastery c) (sessions c).

Definition set_audioBlobId (v : option string) (c : Card) : Card :=
  mkCard (id c) (title c) (source c) (createdAt c) (updatedAt c) v
         (trim c) (bpmTarget c) (comments c) (tags c) (mastery c) (sessions c).

Definition set_title (v : string) (c : Card) : Card :=
  mkCard (id c) v (source c) (createdAt c) (updatedAt c) (audioBlobId c)
         (trim c) (bpmTarget c) (comments c) (tags c) (mastery c) (sessions c).

Definition set_source (v : option string) (c : Card) : Card :=
  mkCard (id c) (title c) v (createdAt c) (updatedAt c) (audioBlobId c)
         (trim c) (bpmTarget c) (comments c) (tags c) (mastery c) (sessions c).

Definition set_bpmTarget (v : option Z) (c : Card) : Card :=
  mkCard (id c) (title c) (source c) (createdAt c) (updatedAt c) (audioBlobId c)
         (trim c) v (comments c) (tags c) (mastery c) (sessions c).

Definition set_comments (v : option string) (c : Card) : Card :=
  mkCard (id c) (title c) (source c) (createdAt c) (updatedAt c) (audioBlobId c)
         (trim c) (bpmTarget c) v (tags c) (mastery c) (sessions c).

Definition set_tags (v : list string) (c : Card) : Card :=
  mkCard (id c) (title c) (source c) (createdAt c) (updatedAt c) (audioBlobId c)
         (trim c) (bpmTarget c) (comments c) v (mastery c) (sessions c).

Definition set_mastery (v : Mastery) (c : Card) : Card :=
  mkCard (id c) (title c) (source c) (createdAt c) (updatedAt c) (audioBlobId c)
         (trim c) (bpmTarget c) (comments c) (tags c) v (sessions c).

Definition set_trim (v : option Trim) (c : Card) : Card :=
  mkCard (id c) (title c) (source c) (createdAt c) (updatedAt c) (audioBlobId c)
         v (bpmTarget c) (comments c) (tags c) (mastery c) (sessions c).

Definition set_sessions (v : option (list Session)) (c : Card) : Card :=
  mkCard (id c) (title c) (source c) (createdAt c) (updatedAt c) (audioBlobId c)
         (trim c) (bpmTarget c) (comments c) (tags c) (mastery c) v.

(** The bytes of a [File] or [Blob]. *)
Definition Blob : Type := list Byte.byte.

(** ** The database

    [openDB] creates two object stores: [cards], with key path [id], and
    [blobs], with out-of-line keys. *)
Record IDB : Type := mkIDB {
  cards : gmap string Card;
  blobs : gmap string Blob
}.

(** The database just after [onupgradeneeded]. *)
Definition empty_db : IDB := mkIDB ∅ ∅.

(** [cardStore.put(card)]: the key is read from the key path; the stored
    value is a structured clone, so later mutation of the object does not
    reach the store. *)
Definition cardStore_put (card : Card) (db : IDB) : IDB :=
  mkIDB (<[id card := card]> (cards db)) (blobs db).

(** [blobStore.put(blob, key)]. *)
Definition blobStore_put (blob : Blob) (key : string) (db : IDB) : IDB :=
  mkIDB (cards db) (<[key := blob]> (blobs db)).

Definition cardStore_delete (key : string) (db : IDB) : IDB :=
  mkIDB (delete key (cards db)) (blobs db).

Definition blobStore_delete (key : string) (db : IDB) : IDB :=
  mkIDB (cards db) (delete key (blobs db)).

(** How a read-write transaction ends.  IndexedDB fires [complete] once
    the writes are committed.  A failed request fires [error], which
    bubbles to the transaction before it aborts.  A failure of the commit
    itself (quota, I/O) aborts the transaction with an [abort] event and no
    [error] event.  An aborted transaction applies none of its writes. *)
Inductive TxEvent : Type := tx_complete | tx_error | tx_abort.

(** The database after a transaction that staged [staged] on [before]. *)
Definition tx_end (ev : TxEvent) (before staged : IDB) : IDB :=
  match ev with
  | tx_complete => staged
  | tx_error | tx_abort => before
  end.

(** The state of the promise returned by [saveCard] and [deleteCard]. *)
Inductive Settled : Type := Pending | Resolved | Rejected.

(** [tx.oncomplete = () => resolve(); tx.onerror = () => reject(tx.error)]:
    the two handlers that [saveCard] and [deleteCard] install.  No handler
    is installed for [abort]. *)
Definition settle (ev : TxEvent) : Settled :=
  match ev with
  | tx_complete => Resolved
  | tx_error => Rejected
  | tx_abort => Pending
  end.

(** [getCard(id)] and [getBlob(id)]: [None] is [undefined]. *)
Definition getCard (key : string) (db : IDB) : option Card := cards db !! key.
Definition getBlob (key : string) (db : IDB) : option Blob := blobs db !! key.

(** The executor of [saveCard] on the object [card]: the object after the
    two assignments, and the writes staged in the transaction.  [blob] is
    [None] for [null]; a [File] is always truthy.  [now] is the reading of
    [Date.now()]. *)
Definition saveCard_exec (card : Card) (blob : option Blob) (now : Z)
    (db : IDB) : Card * IDB :=
  let '(card, db) :=
    match blob with
    | Some b =>
        let blobKey := id card in
        (set_audioBlobId (Some blobKey) card, blobStore_put b blobKey db)
    | None => (card, db)
    end in
  let card := set_updatedAt now card in
  (card, cardStore_put card db).

Definition deleteCard_exec (key : string) (db : IDB) : IDB :=
  blobStore_delete key (cardStore_delete key db).

(** ** The heap of card objects and the page's globals *)

Definition ref : Type := nat.

Record World : Type := mkWorld {
  objs : gmap ref Card;
  idb : IDB;
  selectedFile : option Blob
}.

(** [saveCard(card, blob)], where [card] is the reference [l].  The object
    is assigned to while the executor runs, whatever the transaction does
    later.  [None] only for a dangling reference. *)
Definition saveCard (l : ref) (blob : option Blob) (now : Z) (ev : TxEvent)
    (w : World) : option (World * Settled) :=
  card ← objs w !! l;
  let '(card', staged) := saveCard_exec card blob now (idb w) in
  Some (mkWorld (<[l := card']> (objs w)) (tx_end ev (idb w) staged)
                (selectedFile w),
        settle ev).

(** [deleteCard(id)]. *)
Definition deleteCard (key : string) (ev : TxEvent) (w : World)
    : World * Settled :=
  (mkWorld (objs w) (tx_end ev (idb w) (deleteCard_exec key (idb w)))
           (selectedFile w),
   settle ev).

(** What a click handler leaves on the screen: an [alert], a fresh
    rendering after its [await]s, or an [await] that has not returned. *)
Inductive UiResult : Type :=
| Alert (msg : string)
| Rendered
| Awaiting.

(** ** The add view *)

Module AddView.

(** The form as the Save handler reads it.  Text fields hold
    [input.value.trim()], [tagsInput] the split, trimmed and filtered
    list, [bpmInput] is [None] for an empty field and otherwise the
    [parseInt], and the two trim fields hold the [parseFloat]. *)
Record Form : Type := mkForm {
  randomUUID : string;
  titleInput : string;
  sourceInput : string;
  bpmInput : option Z;
  commentsInput : string;
  tagsInput : list string;
  startInput : jsnum;
  endInput : jsnum;
  circleSelect : Status;
  chromSelect : Status
}.

(** [startSecVal < 0 || endSecVal <= 0 || endSecVal <= startSecVal] *)
Definition rejects (startSecVal endSecVal : Q) : bool :=
  js_lt startSecVal 0 || js_le endSecVal 0 || js_le endSecVal startSecVal.

(** The object literal built by the handler; [t_created] and
    [t_updated] are its two readings of [Date.now()]. *)
Definition new_card (f : Form) (startSecVal endSecVal : Q)
    (t_created t_updated : Z) : Card :=
  {| id := randomUUID f;
     title := titleInput f;
     source := or_undefined (sourceInput f);
     createdAt := t_created;
     updatedAt := t_updated;
     audioBlobId := Some "";
     trim := Some (mkTrim startSecVal endSecVal);
     bpmTarget := match bpmInput f with
                  | Some 0 | None => None
                  | Some n => Some n
                  end;
     comments := or_undefined (commentsInput f);
     tags := tagsInput f;
     mastery := mkMastery (circleSelect f) (chromSelect f);
     sessions := Some [] |}.

(** The click handler of the Save button of [showAddView]. *)
Definition saveBtn_click (f : Form) (t_created t_updated t_save : Z)
    (ev : TxEvent) (w : World) : World * UiResult :=
  match selectedFile w with
  | None => (w, Alert "Please choose an audio file.")
  | Some file =>
      let startSecVal := or_zero (startInput f) in
      let endSecVal := or_zero (endInput f) in
      if rejects startSecVal endSecVal
      then (w, Alert "Please enter valid start and end times.")
      else
        let card := new_card f startSecVal endSecVal t_created t_updated in
        let l := fresh (dom (objs w)) in
        let w := mkWorld (<[l := card]> (objs w)) (idb w) (selectedFile w) in
        match saveCard l (Some file) t_save ev w with
        | Some (w, Resolved) => (mkWorld (objs w) (idb w) None, Rendered)
        | Some (w, Rejected) => (w, Alert "Failed to save card.")
        | Some (w, Pending) => (w, Awaiting)
        | None => (w, Awaiting)
        end
  end.

End AddView.

(** ** The card view *)

Module CardView.

(** The edit form, read as in [AddView.Form]; [bpmEdit] is [None] for
    an empty field. *)
Record Form : Type := mkForm {
  startEdit : jsnum;
  endEdit : jsnum;
  titleEdit : string;
  sourceEdit : string;
  bpmEdit : option Z;
  commentsEdit : string;
  tagsEdit : list string;
  circleSelect : Status;
  chromSelect : Status
}.

(** The assignments the Save Changes handler makes to [card]. *)
Definition edit_card (f : Form) (newStart newEnd : Q) (card : Card) : Card :=
  let card := set_title (titleEdit f) card in
  let card := set_source (or_undefined (sourceEdit f)) card in
  let card := set_bpmTarget (bpmEdit f) card in
  let card := set_comments (or_undefined (commentsEdit f)) card in
  let card := set_tags (tagsEdit f) card in
  let card := set_mastery (mkMastery (circleSelect f) (chromSelect f)) card in
  set_trim (Some (mkTrim newStart newEnd)) card.

(** The click handler of the Save Changes button of [viewCard], for the
    card object [l] of that view. *)
Definition saveMetaBtn_click (l : ref) (f : Form) (now : Z) (ev : TxEvent)
    (w : World) : option (World * UiResult) :=
  let newStart := or_zero (startEdit f) in
  let newEnd := or_zero (endEdit f) in
  if js_le newEnd newStart
  then Some (w, Alert "End must be greater than start.")
  else
    card ← objs w !! l;
    let w := mkWorld (<[l := edit_card f newStart newEnd card]> (objs w))
                     (idb w) (selectedFile w) in
    '(w, r) ← saveCard l None now ev w;
    Some (w, match r with
             | Resolved => Rendered
             | Rejected => Alert "Failed to update."
             | Pending => Awaiting
             end).

(** *** The audio element *)

(** Who makes a call on the element: the click handler, or the
    [onTime] closure with the given [uid]. *)
Inductive Caller : Type :=
| handler
| listener (uid : nat).

Inductive Call : Type :=
| SetCurrentTime (t : Q)
| Play
| Pause
| GetCurrentTime.

(** An [onTime] closure: each click creates a new function object,
    told apart by [uid], that captures [endT]. *)
Record OnTime : Type := mkOnTime { uid : nat; endT : Q }.

(** The element: its playhead, whether it is paused and in the
    document, its [timeupdate] listeners in registration order, the
    number of closures created for it so far, and the calls the page's
    code made on it, oldest first. *)
Record Audio : Type := mkAudio {
  currentTime : Q;
  paused : bool;
  inDocument : bool;
  timeupdate : list OnTime;
  closures : nat;
  calls : list (Caller * Call)
}.

(** The element [viewCard] creates and appends under [main]. *)
Definition createAudio : Audio := mkAudio 0 true true [] 0 [].

Definition called (who : Caller) (c : Call) (a : Audio) : Audio :=
  mkAudio (currentTime a) (paused a) (inDocument a) (timeupdate a)
          (closures a) (calls a ++ [(who, c)]).

(** [audio.currentTime = t] *)
Definition setCurrentTime (who : Caller) (t : Q) (a : Audio) : Audio :=
  called who (SetCurrentTime t)
    (mkAudio t (paused a) (inDocument a) (timeupdate a) (closures a) (calls a)).

(** [audio.play()] *)
Definition play (who : Caller) (a : Audio) : Audio :=
  called who Play
    (mkAudio (currentTime a) false (inDocument a) (timeupdate a) (closures a)
             (calls a)).

(** [audio.pause()] *)
Definition pause (who : Caller) (a : Audio) : Audio :=
  called who Pause
    (mkAudio (currentTime a) true (inDocument a) (timeupdate a) (closures a)
             (calls a)).

(** [audio.addEventListener('timeupdate', onTime)] *)
Definition addEventListener (m : OnTime) (a : Audio) : Audio :=
  mkAudio (currentTime a) (paused a) (inDocument a) (timeupdate a ++ [m])
          (closures a) (calls a).

(** [audio.removeEventListener('timeupdate', onTime)] *)
Definition removeEventListener (m : OnTime) (a : Audio) : Audio :=
  mkAudio (currentTime a) (paused a) (inDocument a)
          (List.filter (fun m' => negb (Nat.eqb (uid m') (uid m))) (timeupdate a))
          (closures a) (calls a).

Definition registered (m : OnTime) (a : Audio) : bool :=
  existsb (fun m' => Nat.eqb (uid m') (uid m)) (timeupdate a).

(** The body of the closure [onTime]. *)
Definition onTime (m : OnTime) (a : Audio) : Audio :=
  let a := called (listener (uid m)) GetCurrentTime a in
  if js_le (endT m) (currentTime a)
  then removeEventListener m (pause (listener (uid m)) a)
  else a.

(** Dispatch of a [timeupdate] event: the listeners registered when the
    dispatch starts run in order, except those removed meanwhile. *)
Definition dispatch_timeupdate (a : Audio) : Audio :=
  fold_left (fun a m => if registered m a then onTime m a else a)
            (timeupdate a) a.

(** The media engine moves the playhead to [pos] and fires [timeupdate]. *)
Definition tick (pos : Q) (a : Audio) : Audio :=
  dispatch_timeupdate
    (mkAudio pos (paused a) (inDocument a) (timeupdate a) (closures a) (calls a)).

Definition ticks (samples : list Q) (a : Audio) : Audio :=
  fold_left (fun a pos => tick pos a) samples a.

(** The click handler of the Play Trimmed Section button, for the card
    object and the audio element of the view. *)
Definition playTrimBtn_click (card : Card) (startEdit endEdit : jsnum)
    (audio : Audio) : Audio * option string :=
  match trim card with
  | None => (audio, None)
  | Some _ =>
      let startT := or_zero startEdit in
      let endT := or_zero endEdit in
      if js_le endT startT
      then (audio, Some "Invalid trim times.")
      else
        let audio := setCurrentTime handler startT audio in
        let audio := play handler audio in
        let onTime := mkOnTime (closures audio) endT in
        let audio := mkAudio (currentTime audio) (paused audio)
                             (inDocument audio) (timeupdate audio)
                             (S (closures audio)) (calls audio) in
        (addEventListener onTime audio, None)
  end.

(** [main.innerHTML = ''], by which every navigation leaves the view:
    the element leaves the document; nothing is done to its listeners. *)
Definition clear_main (a : Audio) : Audio :=
  mkAudio (currentTime a) (paused a) false (timeupdate a) (closures a) (calls a).

(** What can happen to the element of a view. *)
Inductive Event : Type :=
| ev_tick (pos : Q)
| ev_click (card : Card) (startEdit endEdit : jsnum)
| ev_clear_main.

Definition step (e : Event) (a : Audio) : Audio :=
  match e with
  | ev_tick pos => tick pos a
  | ev_click card startEdit endEdit =>
      (playTrimBtn_click card startEdit endEdit a).1
  | ev_clear_main => clear_main a
  end.

Definition run (es : list Event) (a : Audio) : Audio :=
  fold_left (fun a e => step e a) es a.

(** Closure identities are consistent: no two listeners share a [uid],
    and every [uid] was handed out. *)
Definition closures_ok (a : Audio) : Prop :=
  NoDup (uid <$> timeupdate a) ∧
  Forall (fun m => (uid m < closures a)%nat) (timeupdate a).

Definition is_pause (c : Call) : bool :=
  match c with Pause => true | _ => false end.

Definition is_listener (u : nat) (who : Caller) : bool :=
  match who with listener u' => Nat.eqb u' u | handler => false end.

(** The calls made by the closure [u], oldest first. *)
Definition calls_by (u : nat) (a : Audio) : list Call :=
  map snd (List.filter (fun wc => is_listener u wc.1) (calls a)).

(** The number of [pause()] calls made so far by the callers in [who]. *)
Definition pause_count (who : Caller → bool) (a : Audio) : nat :=
  length (List.filter (fun wc => who wc.1 && is_pause wc.2) (calls a)).

(** The indices, counted from [i], of the samples during whose tick a
    caller in [who] called [pause()]. *)
Fixpoint pause_ticks (who : Caller → bool) (i : nat) (samples : list Q)
    (a : Audio) : list nat :=
  match samples with
  | [] => []
  | pos :: samples =>
      let a' := tick pos a in
      (if Nat.ltb (pause_count who a) (pause_count who a') then [i] else [])
        ++ pause_ticks who (S i) samples a'
  end.

(** Whether the closure [m] finds the playhead [pos] at or past its
    end, and the calls it then makes on the element. *)
Definition reached (pos : Q) (m : OnTime) : bool := js_le (endT m) pos.

Definition onTime_calls (pos : Q) (m : OnTime) : list (Caller * Call) :=
  (listener (uid m), GetCurrentTime)
    :: (if reached pos m then [(listener (uid m), Pause)] else []).

(** The index, counted from [i], of the first sample at or past [e]. *)
Fixpoint first_reached (e : Q) (i : nat) (samples : list Q) : option nat :=
  match samples with
  | [] => None
  | pos :: samples =>
      if js_le e pos then Some i else first_reached e (S i) samples
  end.

End CardView.

(** ** The card list: max tempo *)

(** [Math.max(...xs, 0)] *)
Definition Math_max_0 (xs : list Z) : Z := fold_right Z.max 0 xs.

(** The [maxTempo] that [renderCardList] computes for a card. *)
Definition maxTempo (card : Card) : Z :=
  match sessions card with
  | Some sessions =>
      fold_left
        (fun maxTempo sess =>
           match temposAchieved sess with
           | Some tempos =>
               let localMax := Math_max_0 tempos in
               if localMax >? maxTempo then localMax else maxTempo
           | None => maxTempo
           end)
        sessions 0
  | None => 0
  end.

(** Every tempo recorded in the sessions of a card. *)
Definition all_tempos (card : Card) : list Z :=
  match sessions card with
  | Some sessions =>
      concat (map (fun sess => default [] (temposAchieved sess)) sessions)
  | None => []
  end.

(** ** Sequences of repository calls *)

Inductive Op : Type :=
| op_save (card : Card) (blob : option Blob) (now : Z) (ev : TxEvent)
| op_delete (key : string) (ev : TxEvent).

(** The database after one call; [card] is the state of the argument
    object when [saveCard] is called. *)
Definition apply_op (op : Op) (db : IDB) : IDB :=
  match op with
  | op_save card blob now ev => tx_end ev db (saveCard_exec card blob now db).2
  | op_delete key ev => tx_end ev db (deleteCard_exec key db)
  end.

(** The databases reached from the empty one by calls that satisfy [P]
    in the state where they are made. *)
Inductive reachable (P : IDB → Op → Prop) : IDB → Prop :=
| reachable_empty : reachable P empty_db
| reachable_step db op :
    reachable P db → P db op → reachable P (apply_op op db).

(** A card's [audioBlobId] agrees with the payload store. *)
Definition blob_id_ok (db : IDB) (c : Card) : Prop :=
  match blobs db !! id c with
  | Some _ => audioBlobId c = Some (id c)
  | None => audioBlobId c = None ∨ audioBlobId c = Some ""
  end.

(** Every card is stored under its own id. *)
Definition keyed (db : IDB) : Prop := ∀ k c, cards db !! k = Some c → id c = k.

Definition no_orphan_payload (db : IDB) : Prop :=
  ∀ k, is_Some (blobs db !! k) → is_Some (cards db !! k).

Definition referential_integrity (db : IDB) : Prop :=
  (∀ k c, cards db !! k = Some c → blob_id_ok db c) ∧ no_orphan_payload db.

(** A call whose card argument already agrees with the payload store
    when it brings no payload of its own. *)
Definition keeps_blob_id (db : IDB) (op : Op) : Prop :=
  match op with
  | op_save card None _ _ => blob_id_ok db card
  | _ => True
  end.

(** The trim window of a card is well formed. *)
Definition trim_ok (c : Card) : Prop :=
  match trim c with
  | Some t => (0 <= startSec t)%Q ∧ (startSec t < endSec t)%Q
  | None => False
  end.

(** ** Sample values *)

Definition card_a : Card :=
  {| id := "a"; title := "Donna Lee"; source := None; createdAt := 5;
     updatedAt := 5; audioBlobId := Some "";
     trim := Some (mkTrim 0 5); bpmTarget := None; comments := None;
     tags := []; mastery := mkMastery not_started not_started;
     sessions := Some [] |}.

Definition blob_a : Blob := [Byte.x52; Byte.x49; Byte.x46; Byte.x46].

(** A page holding [card_a] as object [0], over the empty database. *)
Definition world_a : World := mkWorld {[ 0%nat := card_a ]} empty_db None.

(** [card_a] as read back after it was saved with [blob_a]. *)
Definition card_a_saved : Card :=
  set_updatedAt 9 (set_audioBlobId (Some "a") card_a).

(** The page of a card view: object [0] is the card read by [getCard]. *)
Definition world_b : World :=
  mkWorld {[ 0%nat := card_a_saved ]}
          (mkIDB {[ "a" := card_a_saved ]} {[ "a" := blob_a ]}) None.

(** The edit form with -5 typed as start and 3 as end. *)
Definition form_negative_start : CardView.Form :=
  CardView.mkForm (Num (-5)) (Num 3) "Donna Lee" "" None "" []
                  not_started not_started.

(** A card with three sessions. *)
Definition session_with (tempos : list Z) : Session :=
  mkSession "s" "a" 9 (Some tempos) 0 free_mode None.

Definition card_three_sessions : Card :=
  set_sessions
    (Some [session_with [100; 120]; session_with [90]; session_with []])
    card_a_saved.

(** ** Sorting as [Array.prototype.sort] does *)

(** [before x y] holds when the comparator does not put [y] before [x].
    With a consistent comparator [sort] yields the stable sorted order
    (ECMAScript 2019); insertion from the right computes it: an element
    is placed before the first element it may precede, so equal elements
    keep their order. *)
Fixpoint insert_sorted {A} (before : A → A → bool) (x : A) (l : list A)
    : list A :=
  match l with
  | [] => [x]
  | y :: l' => if before x y then x :: l else y :: insert_sorted before x l'
  end.

Definition stable_sort {A} (before : A → A → bool) (l : list A) : list A :=
  foldr (insert_sorted before) [] l.

(** ** The card list *)

(** The code points of a string, which holds the UTF-8 bytes of a
    JavaScript string: one to four bytes each. *)
Fixpoint utf8_code_points (bytes : list N) : list N :=
  match bytes with
  | [] => []
  | b0 :: bytes1 =>
      if (b0 <? 128)%N then b0 :: utf8_code_points bytes1
      else
        match bytes1 with
        | [] => [b0]
        | b1 :: bytes2 =>
            if (b0 <? 224)%N
            then ((b0 - 192) * 64 + (b1 - 128))%N :: utf8_code_points bytes2
            else
              match bytes2 with
              | [] => [b0; b1]
              | b2 :: bytes3 =>
                  if (b0 <? 240)%N
                  then ((b0 - 224) * 4096 + (b1 - 128) * 64 + (b2 - 128))%N
                         :: utf8_code_points bytes3
                  else
                    match bytes3 with
                    | [] => [b0; b1; b2]
                    | b3 :: bytes4 =>
                        ((b0 - 240) * 262144 + (b1 - 128) * 4096
                         + (b2 - 128) * 64 + (b3 - 128))%N
                          :: utf8_code_points bytes4
                    end
              end
        end
  end.

(** The UTF-16 code units of a code point: itself, or a surrogate pair. *)
Definition utf16_units (cp : N) : list N :=
  if (cp <? 65536)%N then [cp]
  else [(55296 + (cp - 65536) / 1024)%N; (56320 + (cp - 65536) mod 1024)%N].

(** A string key as IndexedDB compares it: its UTF-16 code units. *)
Definition key_units (key : string) : list N :=
  flat_map utf16_units
    (utf8_code_points (Ascii.N_of_ascii <$> String.list_ascii_of_string key)).

(** Code unit by code unit; a proper prefix comes first. *)
Fixpoint units_leb (a b : list N) : bool :=
  match a, b with
  | [], _ => true
  | _ :: _, [] => false
  | x :: a', y :: b' =>
      if (x <? y)%N then true
      else if (y <? x)%N then false
      else units_leb a' b'
  end.

Definition key_leb (a b : string) : bool := units_leb (key_units a) (key_units b).

(** [getAllCards()]: [store.getAll()] yields the records in ascending key
    order. *)
Definition getAllCards (db : IDB) : list Card :=
  (stable_sort (fun a b => key_leb a.1 b.1) (map_to_list (cards db))).*2.

Definition status_string (s : Status) : string :=
  match s with
  | not_started => "not_started"
  | in_progress => "in_progress"
  | mastered => "mastered"
  end.

(** The tempo line of a card: ['No sessions'], or the template literal
    [`Max Tempo: ${maxTempo} BPM`] with the number it interpolates. *)
Inductive TempoLine : Type :=
| NoSessions
| MaxTempoBPM (maxTempo : Z).

(** The text of a tempo line; [toString] is the Number-to-string
    conversion that the template literal applies. *)
Definition tempo_text (toString : Z → string) (t : TempoLine) : string :=
  match t with
  | NoSessions => "No sessions"
  | MaxTempoBPM maxTempo => "Max Tempo: " +:+ toString maxTempo +:+ " BPM"
  end.

(** One [div.card] of the list: the id its title opens with [viewCard],
    the title, the class and text of the two badges, and the tempo line. *)
Record CardItem : Type := mkCardItem {
  item_opens : string;
  item_h3 : string;
  item_circBadge : string * string;
  item_chromBadge : string * string;
  item_tempoP : TempoLine
}.

(** What [renderCardList] puts under [main]. *)
Inductive MainView : Type :=
| NoCards (p : string)
| CardList (items : list CardItem).

Definition dquote : string := String (Ascii.ascii_of_nat 34) EmptyString.

(** [(b.updatedAt || 0) - (a.updatedAt || 0)] is not positive. *)
Definition by_updatedAt_desc (a b : Card) : bool := (updatedAt b <=? updatedAt a)%Z.

(** The body of the [forEach] of [renderCardList]. *)
Definition render_card (card : Card) : CardItem :=
  {| item_opens := id card;
     item_h3 := if decide (title card = "") then "Untitled" else title card;
     item_circBadge :=
       ("badge " +:+ status_string (circleOfFifths (mastery card)),
        "Circle: " +:+ status_string (circleOfFifths (mastery card)));
     item_chromBadge :=
       ("badge " +:+ status_string (chromatic (mastery card)),
        "Chromatic: " +:+ status_string (chromatic (mastery card)));
     item_tempoP :=
       if (maxTempo card >? 0)%Z then MaxTempoBPM (maxTempo card)
       else NoSessions |}.

Definition renderCardList (cards : list Card) : MainView :=
  match cards with
  | [] =>
      NoCards ("No cards yet. Click " +:+ dquote +:+ "Add New Card" +:+ dquote
               +:+ " to create one.")
  | _ => CardList (render_card <$> stable_sort by_updatedAt_desc cards)
  end.

(** [loadCards()] *)
Definition loadCards (db : IDB) : MainView := renderCardList (getAllCards db).

(** ** Opening a card *)

(** [(b.date || 0) - (a.date || 0)] is not positive. *)
Definition by_date_desc (a b : Session) : bool := (date b <=? date a)%Z.

(** [card.sessions.sort(...)] under its guard: a non-empty array is
    sorted in place. *)
Definition sort_sessions (card : Card) : Card :=
  match sessions card with
  | Some (s :: ss) => set_sessions (Some (stable_sort by_date_desc (s :: ss))) card
  | _ => card
  end.

(** What [viewCard] ends with: the list (no such card), the view of the
    card object [l] with the audio source ([None] for the empty URL), or
    an exception. *)
Inductive ViewResult : Type :=
| ShowsList (v : MainView)
| ShowsCard (l : ref) (src : option Blob) (audio : CardView.Audio)
| ViewThrows.

(** [viewCard(id)].  [getCard] gives a fresh object; [getBlob] is asked
    for [card.audioBlobId], and [store.get(undefined)] throws. *)
Definition viewCard (key : string) (w : World) : World * ViewResult :=
  match getCard key (idb w) with
  | None => (w, ShowsList (loadCards (idb w)))
  | Some card =>
      let l := fresh (dom (objs w)) in
      let w := mkWorld (<[l := card]> (objs w)) (idb w) (selectedFile w) in
      match audioBlobId card with
      | None => (w, ViewThrows)
      | Some blobKey =>
          let blob := getBlob blobKey (idb w) in
          (mkWorld (<[l := sort_sessions card]> (objs w)) (idb w)
                   (selectedFile w),
           ShowsCard l blob CardView.createAudio)
      end
  end.

(** What the Delete handler ends with. *)
Inductive DeleteResult : Type :=
| Declined
| DeletedShowsList (v : MainView)
| DeleteUnhandledRejection
| DeleteAwaiting.

(** The click handler of the Delete button of [viewCard], for the card
    object [l]; [confirmed] is the answer to [confirm].  The handler has
    no [catch]. *)
Definition delBtn_click (l : ref) (confirmed : bool) (ev : TxEvent) (w : World)
    : option (World * DeleteResult) :=
  if confirmed
  then
    card ← objs w !! l;
    let '(w, r) := deleteCard (id card) ev w in
    Some (w, match r with
             | Resolved => DeletedShowsList (loadCards (idb w))
             | Rejected => DeleteUnhandledRejection
             | Pending => DeleteAwaiting
             end)
  else Some (w, Declined).

(** ** The session form *)

Module SessionForm.

(** The form as its Save handler reads it: [checked] tells which tempo
    checkboxes are ticked, [errInput] is [None] for an empty field and
    otherwise the [parseFloat], [notesInput] holds [value.trim()]. *)
Record Form : Type := mkForm {
  randomUUID : string;
  modeSelect : Mode;
  checked : Z → bool;
  errInput : option Q;
  notesInput : string
}.

(** [for (let bpm = 40; bpm <= 240; bpm += 10) tempoValues.push(bpm)],
    with the number of iterations bounded by [fuel]. *)
Fixpoint tempo_loop (fuel : nat) (bpm : Z) : list Z :=
  match fuel with
  | O => []
  | S fuel => if (bpm <=? 240)%Z then bpm :: tempo_loop fuel (bpm + 10)%Z else []
  end.

Definition tempoValues : list Z := tempo_loop 240 40.

(** The values of the ticked checkboxes, in document order. *)
Definition tempos (f : Form) : list Z := List.filter (checked f) tempoValues.

(** The object literal [session]. *)
Definition new_session (f : Form) (card : Card) (t_date : Z) : Session :=
  {| session_id := randomUUID f;
     cardId := id card;
     date := t_date;
     temposAchieved := Some (tempos f);
     errorRate := match errInput f with Some q => q | None => 0%Q end;
     mode := modeSelect f;
     notes := or_undefined (notesInput f) |}.

(** [card.sessions = Array.isArray(card.sessions) ? card.sessions : [];
    card.sessions.push(session)] *)
Definition push_session (s : Session) (card : Card) : Card :=
  set_sessions (Some (default [] (sessions card) ++ [s])%list) card.

(** The click handler of the Save Session button, for the card object
    [l] handed to [showAddSessionForm]. *)
Definition saveBtn_click (l : ref) (f : Form) (t_date t_save : Z)
    (ev : TxEvent) (w : World) : option (World * UiResult) :=
  card ← objs w !! l;
  let session := new_session f card t_date in
  let w := mkWorld (<[l := push_session session card]> (objs w)) (idb w)
                   (selectedFile w) in
  '(w, r) ← saveCard l None t_save ev w;
  Some (w, match r with
           | Resolved => Rendered
           | Rejected => Alert "Failed to save session."
           | Pending => Awaiting
           end).

End SessionForm.

(** ** Opening the database *)

(** The object stores of a database: name and key path ([None] for
    out-of-line keys). *)
Definition Schema : Type := gmap string (option string).

(** [dbRef.createObjectStore(name, options)]: a [ConstraintError] when
    the name is taken. *)
Definition createObjectStore (name : string) (keyPath : option string)
    (s : Schema) : option Schema :=
  match s !! name with
  | Some _ => None
  | None => Some (<[name := keyPath]> s)
  end.

(** The [onupgradeneeded] handler of [openDB]. *)
Definition onupgradeneeded (s : Schema) : option Schema :=
  s ← (if bool_decide (is_Some (s !! "cards")) then Some s
       else createObjectStore "cards" (Some "id") s);
  if bool_decide (is_Some (s !! "blobs")) then Some s
  else createObjectStore "blobs" None s.

(** ** The service worker *)

Module ServiceWorker.

Definition Response : Type := list Byte.byte.

(** The caches of the origin, in creation order. *)
Definition CacheStorage : Type := list (string * gmap string Response).

Definition CACHE_NAME : string := "phrasecards-cache-v1".

Definition urlsToCache : list string :=
  ["/"; "/index.html"; "/app.js"; "/style.css"; "/manifest.json";
   "/icons/ios-180.png"].

(** [cache.addAll(urls)]: every URL is fetched; the responses are stored
    only when every fetch gave an ok response.  [net] is the network:
    [None] when the fetch fails or the status is not ok. *)
Definition addAll (net : string → option Response) (urls : list string)
    (c : gmap string Response) : option (gmap string Response) :=
  rs ← mapM (fun u => (fun r => (u, r)) <$> net u) urls;
  Some (foldl (fun c ur => <[ur.1 := ur.2]> c) c rs).

(** The [install] handler: [caches.open] creates the cache when it is
    missing; the flag tells whether the promise given to [waitUntil]
    is fulfilled. *)
Definition oninstall (net : string → option Response) (cs : CacheStorage)
    : CacheStorage * bool :=
  let cs := match list_find (fun nc => nc.1 = CACHE_NAME) cs with
            | Some _ => cs
            | None => (cs ++ [(CACHE_NAME, ∅)])%list
            end in
  match list_find (fun nc => nc.1 = CACHE_NAME) cs with
  | Some (i, (_, c)) =>
      match addAll net urlsToCache c with
      | Some c' => (<[i := (CACHE_NAME, c')]> cs, true)
      | None => (cs, false)
      end
  | None => (cs, false)
  end.

(** [caches.match(request)]: the first cache that holds the URL. *)
Definition caches_match (url : string) (cs : CacheStorage) : option Response :=
  (list_find (fun nc => is_Some (nc.2 !! url)) cs) ≫= (fun inc => inc.2.2 !! url).

(** The [fetch] handler: [response || fetch(event.request)]. *)
Definition onfetch (net : string → option Response) (url : string)
    (cs : CacheStorage) : option Response :=
  match caches_match url cs with
  | Some response => Some response
  | None => net url
  end.

End ServiceWorker.

(** ** More sample values *)

(** The add form filled in for a card ["b"] with the window 1 to 4. *)
Definition form_add_b : AddView.Form :=
  AddView.mkForm "b" "Confirmation" "" None "" ["bebop"] (Num 1) (Num 4)
                 in_progress not_started.

(** The page with a file chosen, over the database that holds ["a"]. *)
Definition world_c : World :=
  mkWorld ∅ (mkIDB {[ "a" := card_a_saved ]} {[ "a" := blob_a ]}) (Some blob_a).

(** A card stored with an older session before a newer one. *)
Definition session_on (d : Z) (tempos : list Z) : Session :=
  mkSession "s" "a" d (Some tempos) 0 free_mode None.

Definition card_two_dates : Card :=
  set_sessions (Some [session_on 3 [90]; session_on 9 [100; 120]])
               card_a_saved.

(** The edit form with 0 typed as start and 5 as end. *)
Definition form_keep : CardView.Form :=
  CardView.mkForm (Num 0) (Num 5) "Donna Lee" "" None "" []
                  not_started not_started.

(** A session form with 100 and 120 ticked. *)
Definition form_session : SessionForm.Form :=
  SessionForm.mkForm "s1" chromatic_mode
                     (fun bpm => bool_decide (bpm = 100 ∨ bpm = 120))
                     (Some (5 # 1)%Q) "".

(** * Properties *)

(** ** The repository *)

Section Repository.

Implicit Types (w : World) (db : IDB) (c card : Card) (l : ref)
  (blob : option Blob) (p : Blob) (ev : TxEvent) (key : string).

(** The object of [saveCard] after the call. *)
Lemma saveCard_exec_card c blob now db :
  (saveCard_exec c blob now db).1 =
  set_updatedAt now
    (match blob with
     | Some _ => set_audioBlobId (Some (id c)) c
     | None => c
     end).
Proof. by destruct blob. Qed.

Lemma saveCard_exec_id c blob now db : id (saveCard_exec c blob now db).1 = id c.
Proof. by destruct blob. Qed.

(** The writes of [saveCard]: the payload, when there is one, then the
    card. *)
Lemma saveCard_exec_db c blob now db :
  (saveCard_exec c blob now db).2 =
  cardStore_put (saveCard_exec c blob now db).1
    (match blob with
     | Some b => blobStore_put b (id c) db
     | None => db
     end).
Proof. by destruct blob. Qed.

Lemma saveCard_unfold w l c blob now ev :
  objs w !! l = Some c →
  saveCard l blob now ev w =
  Some (mkWorld (<[l := (saveCard_exec c blob now (idb w)).1]> (objs w))
                (apply_op (op_save c blob now ev) (idb w))
                (selectedFile w),
        settle ev).
Proof.
  intros Hl. unfold saveCard. rewrite Hl. simpl.
  by destruct (saveCard_exec c blob now (idb w)).
Qed.

(** All or nothing: a transaction leaves the database as it was or
    with every staged write. *)
Lemma tx_end_atomic ev before staged :
  tx_end ev before staged = before ∨ tx_end ev before staged = staged.
Proof. destruct ev; auto. Qed.

Lemma tx_end_failed ev before staged :
  ev ≠ tx_complete → tx_end ev before staged = before.
Proof. by destruct ev. Qed.

(** After [saveCard] with a payload the card and the payload are both
    in the database, or the database is unchanged. *)
Lemma saveCard_atomic w l c p now ev :
  objs w !! l = Some c →
  ∃ w' r, saveCard l (Some p) now ev w = Some (w', r) ∧
    (idb w' = idb w ∨
     (is_Some (getCard (id c) (idb w')) ∧ getBlob (id c) (idb w') = Some p)).
Proof.
  intros Hl. rewrite (saveCard_unfold _ _ _ _ _ _ Hl). eexists _, _.
  split; [done|]. simpl.
  destruct ev; simpl; auto. right.
  unfold getCard, getBlob. simpl. rewrite !lookup_insert_eq. eauto.
Qed.

(** A failed transaction rejects the promise only when the failure is
    announced by an [error] event. *)
Lemma saveCard_error_rejects w l c blob now :
  objs w !! l = Some c →
  ∃ w', saveCard l blob now tx_error w = Some (w', Rejected) ∧ idb w' = idb w.
Proof. intros Hl. rewrite (saveCard_unfold _ _ _ _ _ _ Hl). by eexists. Qed.

(** [deleteCard] removes both records. *)
Lemma deleteCard_exec_lookup key db :
  getCard key (deleteCard_exec key db) = None ∧
  getBlob key (deleteCard_exec key db) = None.
Proof. unfold getCard, getBlob. simpl. by rewrite !lookup_delete_eq. Qed.

Lemma deleteCard_exec_absent key db :
  getCard key db = None → getBlob key db = None → deleteCard_exec key db = db.
Proof.
  unfold getCard, getBlob, deleteCard_exec, blobStore_delete, cardStore_delete.
  destruct db as [cs bs]. simpl. intros Hc Hb.
  by rewrite !delete_id.
Qed.

End Repository.

Section RepositoryClaims.

Implicit Types (w : World) (db : IDB) (c card : Card) (l : ref)
  (blob : option Blob) (p : Blob) (ev : TxEvent) (key : string).

(** C1, as amended.  After [saveCard(c, p)] completes, [getCard(c.id)]
    returns [c] with [updatedAt] set to the reading of [Date.now()] made
    by the call and [audioBlobId] set to [c.id], every other field as in
    [c]; it is equal in every field to the caller's object after the
    call; its [updatedAt] is at or after any time not later than that
    reading; and [getBlob(c.id)] returns [p]. *)
Theorem saveCard_get_roundtrip w l c p now :
  objs w !! l = Some c →
  ∃ w' r,
    saveCard l (Some p) now tx_complete w = Some (w', Resolved) ∧
    getCard (id c) (idb w') = Some r ∧
    r = mkCard (id c) (title c) (source c) (createdAt c) now (Some (id c))
               (trim c) (bpmTarget c) (comments c) (tags c) (mastery c)
               (sessions c) ∧
    objs w' !! l = Some r ∧
    (∀ t_call : Z, (t_call ≤ now)%Z → (t_call ≤ updatedAt r)%Z) ∧
    getBlob (id c) (idb w') = Some p.
Proof.
  intros Hl. rewrite (saveCard_unfold _ _ _ _ _ _ Hl).
  eexists _, _. split; [reflexivity|]. simpl.
  unfold getCard, getBlob. simpl. rewrite !lookup_insert_eq.
  repeat split; done.
Qed.

Lemma saveCard_get_roundtrip_witness :
  ∃ w' r,
    saveCard 0%nat (Some blob_a) 9 tx_complete world_a = Some (w', Resolved) ∧
    getCard "a" (idb w') = Some r ∧
    r = mkCard "a" "Donna Lee" None 5 9 (Some "a") (Some (mkTrim 0 5)) None
               None [] (mkMastery not_started not_started) (Some []) ∧
    objs w' !! 0%nat = Some r ∧
    (∀ t_call : Z, (t_call ≤ 9)%Z → (t_call ≤ updatedAt r)%Z) ∧
    getBlob "a" (idb w') = Some blob_a.
Proof.
  apply (saveCard_get_roundtrip world_a 0%nat card_a blob_a 9).
  reflexivity.
Defined.

(** C1, as stated, fails for the card the add form builds: its
    [audioBlobId] is empty, and the record read back carries the id. *)
Lemma saveCard_get_not_equal_but_updatedAt :
  ∃ w' r,
    saveCard 0%nat (Some blob_a) 9 tx_complete world_a = Some (w', Resolved) ∧
    getCard (id card_a) (idb w') = Some r ∧
    r ≠ set_updatedAt (updatedAt r) card_a.
Proof.
  rewrite (saveCard_unfold world_a 0%nat card_a _ _ _ eq_refl).
  eexists _, _. split; [reflexivity|]. simpl.
  split; [apply lookup_insert_eq|]. discriminate.
Qed.

(** C2.  When the commit of [saveCard(c, p)] fails, which IndexedDB
    announces by an [abort] event alone, the database is left as before
    the call, but the promise stays pending: it is never rejected. *)
Theorem saveCard_commit_failure_pending w l c p now :
  objs w !! l = Some c →
  ∃ w',
    saveCard l (Some p) now tx_abort w = Some (w', Pending) ∧
    idb w' = idb w.
Proof. intros Hl. rewrite (saveCard_unfold _ _ _ _ _ _ Hl). by eexists. Qed.

Lemma saveCard_commit_failure_pending_witness :
  ∃ w',
    saveCard 0%nat (Some blob_a) 9 tx_abort world_a = Some (w', Pending) ∧
    idb w' = idb world_a.
Proof.
  apply (saveCard_commit_failure_pending world_a 0%nat card_a blob_a 9).
  reflexivity.
Defined.

(** C3.  After [deleteCard(id)] completes, [getCard(id)] and
    [getBlob(id)] both return nothing; the promise resolves; deleting
    again resolves and changes nothing; and deleting an id that has no
    record resolves and changes nothing. *)
Theorem deleteCard_complete_idempotent key w :
  let w' := (deleteCard key tx_complete w).1 in
  (deleteCard key tx_complete w).2 = Resolved ∧
  getCard key (idb w') = None ∧
  getBlob key (idb w') = None ∧
  deleteCard key tx_complete w' = (w', Resolved) ∧
  (getCard key (idb w) = None → getBlob key (idb w) = None →
   deleteCard key tx_complete w = (w, Resolved)).
Proof.
  simpl. pose proof (deleteCard_exec_lookup key (idb w)) as [Hc Hb].
  repeat split; try done.
  - unfold deleteCard. simpl. by rewrite deleteCard_exec_absent.
  - intros Hc' Hb'. unfold deleteCard. simpl.
    rewrite deleteCard_exec_absent by done. by destruct w.
Qed.

Lemma deleteCard_complete_idempotent_witness :
  (deleteCard "zz" tx_complete world_a).2 = Resolved ∧
  deleteCard "zz" tx_complete world_a = (world_a, Resolved).
Proof.
  pose proof (deleteCard_complete_idempotent "zz" world_a) as H.
  simpl in H. destruct H as (Hr & _ & _ & _ & Hn).
  split; [exact Hr|]. apply Hn; reflexivity.
Defined.

(** C10.  Whatever the transaction does, [saveCard] leaves its argument
    object with [updatedAt] set to the reading of [Date.now()], with
    [audioBlobId] set to the id when a payload is given, and with every
    other field as before; no other object changes; and when the
    transaction does not complete the database is unchanged while the
    object keeps the new values. *)
Theorem saveCard_mutates_argument w l c blob now ev :
  objs w !! l = Some c →
  ∃ w',
    saveCard l blob now ev w = Some (w', settle ev) ∧
    objs w' !! l =
      Some (mkCard (id c) (title c) (source c) (createdAt c) now
              (match blob with
               | Some _ => Some (id c)
               | None => audioBlobId c
               end)
              (trim c) (bpmTarget c) (comments c) (tags c) (mastery c)
              (sessions c)) ∧
    (∀ l', l' ≠ l → objs w' !! l' = objs w !! l') ∧
    (ev ≠ tx_complete → idb w' = idb w).
Proof.
  intros Hl. rewrite (saveCard_unfold _ _ _ _ _ _ Hl).
  eexists. split; [reflexivity|]. simpl. repeat split.
  - rewrite lookup_insert_eq. by destruct blob.
  - intros l' Hne. by rewrite lookup_insert_ne.
  - apply tx_end_failed.
Qed.

Lemma saveCard_mutates_argument_witness :
  ∃ w',
    saveCard 0%nat (Some blob_a) 9 tx_error world_a = Some (w', Rejected) ∧
    objs w' !! 0%nat =
      Some (mkCard "a" "Donna Lee" None 5 9 (Some "a") (Some (mkTrim 0 5))
              None None [] (mkMastery not_started not_started) (Some [])) ∧
    (∀ l', l' ≠ 0%nat → objs w' !! l' = objs world_a !! l') ∧
    (tx_error ≠ tx_complete → idb w' = idb world_a).
Proof.
  apply (saveCard_mutates_argument world_a 0%nat card_a (Some blob_a) 9 tx_error).
  reflexivity.
Defined.

End RepositoryClaims.

(** ** Referential integrity over sequences of calls *)

Section Integrity.

Implicit Types (db : IDB) (c card : Card) (op : Op) (k key : string).

Lemma apply_op_failed op db :
  apply_op op db = db ∨
  (∃ card blob now, op = op_save card blob now tx_complete) ∨
  (∃ key, op = op_delete key tx_complete).
Proof.
  destruct op as [card blob now []|key []]; simpl; auto.
  - right. left. by exists card, blob, now.
  - right. right. by exists key.
Qed.

Lemma apply_op_keyed op db : keyed db → keyed (apply_op op db).
Proof.
  intros Hk. destruct (apply_op_failed op db) as [->|[(c & b & n & ->)|(key & ->)]];
    [done| |]; intros k c'; simpl.
  - rewrite saveCard_exec_db. simpl. rewrite saveCard_exec_id.
    destruct (decide (id c = k)) as [<-|Hne].
    + rewrite lookup_insert_eq. intros [= <-]. apply saveCard_exec_id.
    + rewrite lookup_insert_ne by done. destruct b; apply Hk.
  - destruct (decide (key = k)) as [<-|Hne].
    + by rewrite lookup_delete_eq.
    + rewrite lookup_delete_ne by done. apply Hk.
Qed.

Lemma apply_op_no_orphan op db :
  no_orphan_payload db → no_orphan_payload (apply_op op db).
Proof.
  intros Ho. destruct (apply_op_failed op db) as [->|[(c & b & n & ->)|(key & ->)]];
    [done| |]; intros k; simpl.
  - rewrite saveCard_exec_db. simpl. rewrite saveCard_exec_id.
    destruct (decide (id c = k)) as [<-|Hne].
    + rewrite lookup_insert_eq. eauto.
    + rewrite lookup_insert_ne by done.
      destruct b; simpl; [rewrite lookup_insert_ne by done|]; apply Ho.
  - destruct (decide (key = k)) as [<-|Hne].
    + rewrite lookup_delete_eq. by intros [? ?].
    + rewrite !lookup_delete_ne by done. apply Ho.
Qed.

Lemma apply_op_blob_id op db :
  keyed db → keeps_blob_id db op →
  (∀ k c, cards db !! k = Some c → blob_id_ok db c) →
  ∀ k c, cards (apply_op op db) !! k = Some c → blob_id_ok (apply_op op db) c.
Proof.
  intros Hk Hop Hb.
  destruct (apply_op_failed op db) as [->|[(c & b & n & ->)|(key & ->)]];
    [done| |]; intros k c'; simpl.
  - rewrite saveCard_exec_db. simpl. rewrite saveCard_exec_id.
    destruct (decide (id c = k)) as [<-|Hne].
    + rewrite lookup_insert_eq. intros [= <-].
      unfold blob_id_ok. simpl. rewrite saveCard_exec_id.
      destruct b as [b|]; simpl.
      * by rewrite lookup_insert_eq.
      * exact Hop.
    + rewrite lookup_insert_ne by done.
      assert (cards match b with
                    | Some b => blobStore_put b (id c) db
                    | None => db
                    end = cards db) as -> by by destruct b.
      intros Hc'.
      pose proof (Hk _ _ Hc') as Hid. pose proof (Hb _ _ Hc') as Hok.
      unfold blob_id_ok in *.
      destruct b as [b|]; simpl; [|exact Hok].
      rewrite lookup_insert_ne by congruence. exact Hok.
  - destruct (decide (key = k)) as [<-|Hne].
    + by rewrite lookup_delete_eq.
    + rewrite lookup_delete_ne by done. intros Hc'.
      pose proof (Hk _ _ Hc') as Hid. pose proof (Hb _ _ Hc') as Hok.
      unfold blob_id_ok in *. simpl.
      rewrite lookup_delete_ne by congruence. exact Hok.
Qed.

(** [deleteCard] is the [op_delete] step on the database. *)
Lemma deleteCard_idb key ev w :
  idb (deleteCard key ev w).1 = apply_op (op_delete key ev) (idb w).
Proof. reflexivity. Qed.

(** A card read back from a database with integrity, edited in the card
    view and saved without a payload, is a call that keeps the
    [audioBlobId] agreement: the edit touches neither [id] nor
    [audioBlobId]. *)
Lemma edited_card_keeps_blob_id db k c f newStart newEnd now ev :
  referential_integrity db →
  getCard k db = Some c →
  keeps_blob_id db (op_save (CardView.edit_card f newStart newEnd c) None now ev).
Proof. intros [Hb _] Hc. exact (Hb k c Hc). Qed.

Lemma reachable_keyed P db : reachable P db → keyed db.
Proof.
  induction 1 as [|db op _ IH _]; [by intros k c|]. by apply apply_op_keyed.
Qed.

Lemma reachable_no_orphan P db : reachable P db → no_orphan_payload db.
Proof.
  induction 1 as [|db op _ IH _]; [|by apply apply_op_no_orphan].
  intros k. simpl. rewrite lookup_empty. by intros [? ?].
Qed.

(** C4, as amended.  In every state reached from the empty database by
    [saveCard] and [deleteCard] calls no payload is stored without its
    card.  When moreover every [saveCard] call without a payload is given
    a card whose [audioBlobId] already agrees with the payload store,
    every stored card has [audioBlobId] equal to its id when a payload is
    stored under that id, and absent or empty otherwise. *)
Theorem reachable_referential_integrity db :
  (reachable (λ _ _, True) db → no_orphan_payload db) ∧
  (reachable keeps_blob_id db → referential_integrity db).
Proof.
  split; [apply reachable_no_orphan|].
  intros Hr. split; [|by eapply reachable_no_orphan].
  induction Hr as [|db op Hr IH Hop]; [by intros k c|].
  apply apply_op_blob_id; [by eapply reachable_keyed|done|done].
Qed.

Lemma reachable_referential_integrity_witness :
  no_orphan_payload (apply_op (op_save card_a (Some blob_a) 9 tx_complete) empty_db) ∧
  referential_integrity
    (apply_op (op_save card_a (Some blob_a) 9 tx_complete) empty_db).
Proof.
  split.
  - apply (reachable_referential_integrity
             (apply_op (op_save card_a (Some blob_a) 9 tx_complete) empty_db)).
    apply reachable_step; [apply reachable_empty|exact I].
  - apply (reachable_referential_integrity
             (apply_op (op_save card_a (Some blob_a) 9 tx_complete) empty_db)).
    apply reachable_step; [apply reachable_empty|exact I].
Defined.

(** C4, as stated, fails: one [saveCard] without a payload of a card
    that names a payload stores a card whose [audioBlobId] is neither
    absent nor empty although no payload exists. *)
Lemma reachable_without_integrity :
  let db := apply_op (op_save (set_audioBlobId (Some "a") card_a) None 9
                              tx_complete) empty_db in
  reachable (λ _ _, True) db ∧ ¬ referential_integrity db.
Proof.
  split.
  - apply reachable_step; [apply reachable_empty|exact I].
  - intros [Hb _]. specialize (Hb "a" _ (lookup_insert_eq _ _ _)).
    unfold blob_id_ok in Hb. simpl in Hb. rewrite lookup_empty in Hb.
    by destruct Hb.
Qed.

End Integrity.

(** ** Trim validation in the two forms *)

Section TrimValidation.

Implicit Types (w : World) (c card : Card) (l : ref) (ev : TxEvent).

Lemma js_le_true a b : js_le a b = true ↔ (a <= b)%Q.
Proof. apply Qle_bool_iff. Qed.

Lemma js_le_false a b : js_le a b = false ↔ (b < a)%Q.
Proof.
  unfold js_le. split.
  - intros H. apply Qnot_le_lt. intros Hle.
    apply Qle_bool_iff in Hle. congruence.
  - intros H. destruct (Qle_bool a b) eqn:E; [|done].
    apply Qle_bool_iff in E. by apply Qlt_not_le in H.
Qed.

Lemma js_lt_false a b : js_lt a b = false ↔ (b <= a)%Q.
Proof.
  unfold js_lt. rewrite <- Qle_bool_iff. destruct (Qle_bool b a); naive_solver.
Qed.

(** The add form lets through only well-formed windows. *)
Lemma AddView_rejects_false s e :
  AddView.rejects s e = false → (0 <= s)%Q ∧ (s < e)%Q.
Proof.
  unfold AddView.rejects. intros H.
  apply orb_false_elim in H as [H He]. apply orb_false_elim in H as [Hs _].
  split; [by apply js_lt_false|by apply js_le_false].
Qed.

(** The Save handler of the add view changes the database only by
    storing a card with a well-formed window, and a rejected form
    changes nothing at all. *)
Lemma AddView_saveBtn_click_trim_ok f t1 t2 t3 ev w :
  let '(w', r) := AddView.saveBtn_click f t1 t2 t3 ev w in
  (AddView.rejects (or_zero (AddView.startInput f))
                   (or_zero (AddView.endInput f)) = true →
   w' = w) ∧
  (idb w' = idb w ∨
   ∃ c, getCard (AddView.randomUUID f) (idb w') = Some c ∧ trim_ok c).
Proof.
  unfold AddView.saveBtn_click.
  destruct (selectedFile w) as [file|]; [|by auto].
  destruct (AddView.rejects _ _) eqn:Hrej; [by auto|].
  apply AddView_rejects_false in Hrej.
  set (card := AddView.new_card _ _ _ _ _).
  set (w1 := mkWorld _ _ _).
  rewrite (saveCard_unfold w1 _ card); [|by apply lookup_insert_eq].
  destruct ev; simpl; (split; [done|]); auto.
  right. exists (set_updatedAt t3 (set_audioBlobId (Some (id card)) card)).
  split; [apply lookup_insert_eq|exact Hrej].
Qed.

(** What the Save Changes handler does with a form whose end is past
    its start. *)
Lemma CardView_saveMetaBtn_click_accepts l f now w c :
  objs w !! l = Some c →
  (or_zero (CardView.startEdit f) < or_zero (CardView.endEdit f))%Q →
  ∃ w' c',
    CardView.saveMetaBtn_click l f now tx_complete w = Some (w', Rendered) ∧
    getCard (id c) (idb w') = Some c' ∧
    trim c' = Some (mkTrim (or_zero (CardView.startEdit f))
                           (or_zero (CardView.endEdit f))).
Proof.
  intros Hl Hlt. unfold CardView.saveMetaBtn_click.
  apply js_le_false in Hlt. rewrite Hlt, Hl. simpl.
  set (card := CardView.edit_card _ _ _ _).
  set (w1 := mkWorld _ _ _).
  rewrite (saveCard_unfold w1 _ card); [|by apply lookup_insert_eq].
  simpl. eexists _, _. split; [reflexivity|].
  unfold getCard. simpl.
  change (id (set_updatedAt now card)) with (id c).
  rewrite lookup_insert_eq. done.
Qed.

(** C5.  The Save Changes handler of the card view checks only that
    the end is past the start: with -5 as start and 3 as end it stores
    the card, which then has a negative [startSec]. *)
Theorem saveMetaBtn_click_stores_negative_start :
  ∃ w' c,
    CardView.saveMetaBtn_click 0%nat form_negative_start 12 tx_complete world_b
      = Some (w', Rendered) ∧
    getCard "a" (idb w') = Some c ∧
    trim c = Some (mkTrim (-5) 3) ∧
    ¬ trim_ok c.
Proof.
  destruct (CardView_saveMetaBtn_click_accepts 0%nat form_negative_start 12
              world_b card_a_saved) as (w' & c & Hs & Hg & Ht);
    [reflexivity|reflexivity|].
  exists w', c. repeat split; try done.
  unfold trim_ok. rewrite Ht. simpl. intros [H _]. by apply H.
Qed.

End TrimValidation.


(** ** Trimmed playback *)

Section Playback.

Import CardView.
Local Open Scope list_scope.

Implicit Types (a audio : Audio) (m : OnTime) (pos : Q) (samples : list Q)
  (l keep : list OnTime) (who : Caller → bool).

(** The click handler with a well-formed range: seek, play, and one
    more listener. *)
Lemma playTrimBtn_click_starts card s e audio :
  is_Some (trim card) →
  (or_zero s < or_zero e)%Q →
  playTrimBtn_click card s e audio =
  (mkAudio (or_zero s) false (inDocument audio)
           (timeupdate audio ++ [mkOnTime (closures audio) (or_zero e)])
           (S (closures audio))
           (calls audio ++ [(handler, SetCurrentTime (or_zero s))]
                        ++ [(handler, Play)]),
   None).
Proof.
  intros [t Ht] Hlt. unfold playTrimBtn_click. rewrite Ht.
  apply js_le_false in Hlt. rewrite Hlt. simpl.
  by rewrite <- app_assoc.
Qed.

(** *** One dispatch in closed form *)

Lemma filter_other_uids keep m l :
  NoDup (uid <$> keep ++ m :: l) →
  List.filter (λ m', negb (uid m' =? uid m)%nat) (keep ++ m :: l) = keep ++ l.
Proof.
  rewrite fmap_app, fmap_cons. intros Hnd.
  apply NoDup_app in Hnd as (_ & Hdisj & Hnd).
  apply NoDup_cons in Hnd as [Hm _].
  assert (∀ l', uid m ∉ uid <$> l' →
            List.filter (λ m', negb (uid m' =? uid m)%nat) l' = l') as Hid.
  { induction l' as [|m' l' IH]; [done|]. rewrite fmap_cons. simpl.
    intros Hnot. apply not_elem_of_cons in Hnot as [Hne Hnot].
    replace (uid m' =? uid m)%nat with false
      by (symmetry; apply Nat.eqb_neq; congruence).
    simpl. by rewrite IH. }
  rewrite List.filter_app. simpl. rewrite Nat.eqb_refl. simpl.
  rewrite !Hid; [done|done|].
  intros Hin. by apply (Hdisj (uid m)); [|left].
Qed.

Lemma registered_elem m a : m ∈ timeupdate a → registered m a = true.
Proof.
  intros Hin. unfold registered. apply existsb_exists. exists m.
  split; [by apply list_elem_of_In|apply Nat.eqb_refl].
Qed.

Lemma registered_false m a :
  registered m a = false ↔ uid m ∉ uid <$> timeupdate a.
Proof.
  unfold registered. induction (timeupdate a) as [|m' l IH]; simpl.
  - split; [intros _; apply not_elem_of_nil|done].
  - rewrite orb_false_iff, IH, not_elem_of_cons, Nat.eqb_neq.
    split; intros [? ?]; (split; [congruence|done]).
Qed.

Lemma dispatch_fold pos l : ∀ keep a,
  timeupdate a = keep ++ l →
  NoDup (uid <$> keep ++ l) →
  currentTime a = pos →
  fold_left (λ a m, if registered m a then onTime m a else a) l a =
  mkAudio pos (paused a || existsb (reached pos) l) (inDocument a)
          (keep ++ List.filter (λ m, negb (reached pos m)) l) (closures a)
          (calls a ++ flat_map (onTime_calls pos) l).
Proof.
  induction l as [|m l IH]; intros keep a Ha Hnd Hpos.
  - simpl. rewrite orb_false_r, !app_nil_r in *. destruct a; simpl in *.
    by subst.
  - assert (registered m a = true) as Hreg.
    { apply registered_elem. rewrite Ha. apply elem_of_app. right. left. }
    simpl. rewrite Hreg.
    unfold onTime, onTime_calls, reached. simpl. rewrite Hpos.
    destruct (js_le (endT m) pos) eqn:Hle; simpl.
    + rewrite (IH keep); simpl.
      * rewrite orb_true_r. simpl. f_equal. by rewrite <- !app_assoc.
      * rewrite Ha. by apply filter_other_uids.
      * rewrite fmap_app in *. rewrite fmap_cons in Hnd.
        apply NoDup_app in Hnd as (? & Hd & Hnd).
        apply NoDup_cons in Hnd as [? ?]. apply NoDup_app.
        repeat split; [done| |done].
        intros x Hx Hx'. apply (Hd x Hx). by right.
      * done.
    + rewrite (IH (keep ++ [m])); simpl.
      * f_equal; by rewrite <- !app_assoc.
      * by rewrite Ha, <- app_assoc.
      * by rewrite <- app_assoc.
      * done.
Qed.

(** A tick runs every registered listener once, in order. *)
Lemma tick_closed_form pos a :
  NoDup (uid <$> timeupdate a) →
  tick pos a =
  mkAudio pos (paused a || existsb (reached pos) (timeupdate a)) (inDocument a)
          (List.filter (λ m, negb (reached pos m)) (timeupdate a)) (closures a)
          (calls a ++ flat_map (onTime_calls pos) (timeupdate a)).
Proof.
  intros Hnd. unfold tick, dispatch_timeupdate. simpl.
  by rewrite (dispatch_fold pos (timeupdate a) []).
Qed.

(** *** Listener bookkeeping *)

Lemma filter_elem (f : OnTime → bool) l m :
  m ∈ List.filter f l ↔ m ∈ l ∧ f m = true.
Proof. rewrite !list_elem_of_In. apply List.filter_In. Qed.

Lemma filter_uids_subset (f : OnTime → bool) l u :
  u ∈ uid <$> List.filter f l → u ∈ uid <$> l.
Proof.
  rewrite !list_elem_of_fmap. intros (m & -> & Hm).
  apply filter_elem in Hm as [Hm _]. by exists m.
Qed.

Lemma filter_uids_NoDup (f : OnTime → bool) l :
  NoDup (uid <$> l) → NoDup (uid <$> List.filter f l).
Proof.
  induction l as [|m l IH]; [done|]. rewrite fmap_cons, NoDup_cons.
  intros [Hm Hnd]. simpl. destruct (f m); [|by apply IH].
  rewrite fmap_cons, NoDup_cons. split; [|by apply IH].
  intros Hin. by apply Hm, (filter_uids_subset f).
Qed.

Lemma uid_inj_on l m m' :
  NoDup (uid <$> l) → m ∈ l → m' ∈ l → uid m' = uid m → m' = m.
Proof.
  induction l as [|x l IH]; [by intros _ ?%elem_of_nil|].
  rewrite fmap_cons, NoDup_cons. intros [Hx Hnd] Hm Hm' Hu.
  apply elem_of_cons in Hm as [->|Hm]; apply elem_of_cons in Hm' as [->|Hm'].
  - done.
  - exfalso. apply Hx. rewrite <- Hu. by apply list_elem_of_fmap_2.
  - exfalso. apply Hx. rewrite Hu. by apply list_elem_of_fmap_2.
  - by apply IH.
Qed.

Lemma closures_ok_createAudio : closures_ok createAudio.
Proof. split; constructor. Qed.

Lemma closures_ok_tick pos a : closures_ok a → closures_ok (tick pos a).
Proof.
  intros [Hnd Hlt]. rewrite tick_closed_form by done. split; simpl.
  - by apply filter_uids_NoDup.
  - apply Forall_forall. intros m Hm. apply filter_elem in Hm as [Hm _].
    by apply (proj1 (Forall_forall _ _) Hlt).
Qed.

Lemma closures_ok_ticks samples a :
  closures_ok a → closures_ok (ticks samples a).
Proof.
  revert a. induction samples as [|pos samples IH]; intros a Hok; [done|].
  simpl. by apply IH, closures_ok_tick.
Qed.

Lemma closures_ok_click card s e a :
  closures_ok a → closures_ok (playTrimBtn_click card s e a).1.
Proof.
  intros [Hnd Hlt]. unfold playTrimBtn_click.
  destruct (trim card); [|done].
  destruct (js_le (or_zero e) (or_zero s)); [done|]. simpl. split; simpl.
  - rewrite fmap_app. apply NoDup_app. repeat split; [done| |].
    + intros u Hu. apply list_elem_of_fmap in Hu as (m & -> & Hm).
      simpl. rewrite list_elem_of_singleton. intros Heq.
      pose proof (proj1 (Forall_forall _ _) Hlt m Hm) as Hm'.
      simpl in Hm'. lia.
    + apply NoDup_singleton.
  - apply Forall_app. split.
    + eapply Forall_impl; [exact Hlt|]. simpl. intros. lia.
    + constructor; [simpl; lia|constructor].
Qed.

(** *** Counting the calls of one tick *)

Lemma pause_count_tick who pos a :
  NoDup (uid <$> timeupdate a) →
  pause_count who (tick pos a) =
  (pause_count who a +
   length (List.filter (λ m, who (listener (uid m)) && reached pos m)
                       (timeupdate a)))%nat.
Proof.
  intros Hnd. rewrite tick_closed_form by done. unfold pause_count. simpl.
  rewrite List.filter_app, length_app. f_equal. clear Hnd.
  induction (timeupdate a) as [|m l IH]; [done|]. simpl.
  rewrite andb_false_r.
  destruct (reached pos m); simpl.
  - rewrite andb_true_r. destruct (who (listener (uid m))); simpl; by rewrite IH.
  - by rewrite andb_false_r, IH.
Qed.

Lemma count_none (f : OnTime → bool) l :
  (∀ m, m ∈ l → f m = false) → List.filter f l = [].
Proof.
  induction l as [|x l IH]; [done|]. intros H. simpl.
  rewrite (H x) by left. apply IH. intros m Hm. apply H. by right.
Qed.

Lemma count_single (f : OnTime → bool) l m :
  NoDup l → m ∈ l → (∀ m', m' ∈ l → f m' = true → m' = m) →
  List.filter f l = if f m then [m] else [].
Proof.
  induction l as [|x l IH]; [by intros _ ?%elem_of_nil|].
  rewrite NoDup_cons. intros [Hx Hnd] Hm Hf. simpl.
  apply elem_of_cons in Hm as [->|Hm].
  - rewrite (count_none f l); [done|].
    intros m' Hm'. destruct (f m') eqn:E; [|done].
    exfalso. apply Hx. rewrite <- (Hf m'); [done|by right|done].
  - destruct (f x) eqn:E.
    + exfalso. apply Hx. rewrite (Hf x); [done|left|done].
    + apply IH; [done|done|]. intros m' Hm'. apply Hf. by right.
Qed.

(** *** One monitor over a sequence of samples *)

Lemma tick_timeupdate pos a :
  NoDup (uid <$> timeupdate a) →
  timeupdate (tick pos a) =
  List.filter (λ m, negb (reached pos m)) (timeupdate a).
Proof. intros Hnd. by rewrite tick_closed_form. Qed.

Lemma tick_paused pos a :
  NoDup (uid <$> timeupdate a) →
  paused (tick pos a) = paused a || existsb (reached pos) (timeupdate a).
Proof. intros Hnd. by rewrite tick_closed_form. Qed.

(** Ticks never run a closure that is not registered. *)
Lemma monitor_quiet who samples : ∀ i a,
  NoDup (uid <$> timeupdate a) →
  (∀ m, m ∈ timeupdate a → who (listener (uid m)) = false) →
  pause_ticks who i samples a = [] ∧
  (paused a = true → paused (ticks samples a) = true) ∧
  (∀ m, m ∈ timeupdate (ticks samples a) → m ∈ timeupdate a).
Proof.
  induction samples as [|pos samples IH]; intros i a Hnd Hwho; [done|].
  simpl. rewrite pause_count_tick by done.
  rewrite count_none
    by (intros m Hm; by rewrite (Hwho m Hm)).
  simpl. rewrite Nat.add_0_r, Nat.ltb_irrefl. simpl.
  pose proof (closures_ok_tick pos a) as Hok.
  assert (∀ m, m ∈ timeupdate (tick pos a) → m ∈ timeupdate a) as Hsub.
  { intros m. rewrite tick_timeupdate by done. by intros [? _]%filter_elem. }
  destruct (IH (S i) (tick pos a)) as (Hp & Hpaused & Hin).
  - rewrite tick_timeupdate by done. by apply filter_uids_NoDup.
  - intros m Hm. by apply Hwho, Hsub.
  - repeat split; [done| |by auto].
    intros Hpa. apply Hpaused. rewrite tick_paused by done. by rewrite Hpa.
Qed.

Lemma monitor_run who samples : ∀ i a m,
  NoDup (uid <$> timeupdate a) →
  m ∈ timeupdate a →
  who (listener (uid m)) = true →
  (∀ m', m' ∈ timeupdate a → who (listener (uid m')) = true → m' = m) →
  match first_reached (endT m) i samples with
  | Some j =>
      pause_ticks who i samples a = [j] ∧
      paused (ticks samples a) = true ∧
      registered m (ticks samples a) = false
  | None =>
      pause_ticks who i samples a = [] ∧
      m ∈ timeupdate (ticks samples a) ∧
      (timeupdate a = [m] → paused (ticks samples a) = paused a)
  end.
Proof.
  induction samples as [|pos samples IH]; intros i a m Hnd Hm Hwm Hwho; [done|].
  simpl. rewrite pause_count_tick by done.
  rewrite (count_single _ _ m); [|by eapply NoDup_fmap_1|done|]; last first.
  { intros m' Hm' [? _]%andb_true_iff. by apply Hwho. }
  rewrite Hwm. simpl.
  pose proof (filter_uids_NoDup (λ m, negb (reached pos m)) _ Hnd) as Hnd'.
  rewrite <- tick_timeupdate in Hnd' by done.
  change (js_le (endT m) pos) with (reached pos m).
  destruct (reached pos m) eqn:Hr; simpl.
  - replace (pause_count who a <? pause_count who a + 1)%nat with true
      by (symmetry; apply Nat.ltb_lt; lia).
    assert (∀ m', m' ∈ timeupdate (tick pos a) → m' ∈ timeupdate a ∧ m' ≠ m)
      as Hrest.
    { intros m'. rewrite tick_timeupdate by done.
      intros [? Hr']%filter_elem. split; [done|]. intros ->.
      by rewrite Hr in Hr'. }
    destruct (monitor_quiet who samples (S i) (tick pos a)) as (-> & Hp & Hin);
      [done| |].
    { intros m' [Hm' Hne]%Hrest. destruct (who (listener (uid m'))) eqn:E; [|done].
      by destruct Hne; apply Hwho. }
    split; [done|split].
    + apply Hp. rewrite tick_paused by done.
      replace (existsb (reached pos) (timeupdate a)) with true;
        [by rewrite orb_true_r|].
      symmetry. apply existsb_exists. exists m.
      split; [by apply list_elem_of_In|done].
    + apply registered_false. intros Hu.
      apply list_elem_of_fmap in Hu as (m' & Hu & Hm').
      apply Hin, Hrest in Hm' as [Hm' Hne].
      apply Hne. by apply (uid_inj_on (timeupdate a)).
  - rewrite Nat.add_0_r, Nat.ltb_irrefl. simpl.
    assert (m ∈ timeupdate (tick pos a)) as Hm'.
    { rewrite tick_timeupdate by done. apply filter_elem. by rewrite Hr. }
    assert (∀ m', m' ∈ timeupdate (tick pos a) → m' ∈ timeupdate a) as Hsub.
    { intros m'. rewrite tick_timeupdate by done. by intros [? _]%filter_elem. }
    specialize (IH (S i) (tick pos a) m Hnd' Hm' Hwm).
    destruct (first_reached (endT m) (S i) samples).
    + apply IH. intros m'' ?%Hsub. by apply Hwho.
    + destruct IH as (? & ? & Hp); [intros m'' ?%Hsub; by apply Hwho|].
      repeat split; [done|done|]. intros Ha. rewrite Hp.
      * rewrite tick_paused, Ha by done. simpl. by rewrite Hr, !orb_false_r.
      * rewrite tick_timeupdate, Ha by done. simpl. by rewrite Hr.
Qed.

(** [first_reached] finds the first sample at or past the end. *)
Lemma first_reached_Some e i samples j :
  first_reached e i samples = Some j →
  ∃ k pos, j = (i + k)%nat ∧ samples !! k = Some pos ∧ (e <= pos)%Q ∧
    ∀ k' pos', (k' < k)%nat → samples !! k' = Some pos' → (pos' < e)%Q.
Proof.
  revert i. induction samples as [|pos samples IH]; intros i; [done|].
  simpl. destruct (js_le e pos) eqn:Hle.
  - intros [= <-]. exists 0%nat, pos. repeat split; [lia|by apply js_le_true|].
    intros k' pos' Hk'. lia.
  - intros H. destruct (IH _ H) as (k & pos1 & -> & Hk & Hle1 & Hbefore).
    exists (S k), pos1. repeat split; [lia|done|done|].
    intros [|k'] pos' Hlt; simpl.
    + intros [= <-]. by apply js_le_false.
    + apply Hbefore. lia.
Qed.

Lemma first_reached_None e i samples :
  first_reached e i samples = None ↔ Forall (λ pos, (pos < e)%Q) samples.
Proof.
  revert i. induction samples as [|pos samples IH]; intros i; simpl.
  - split; [constructor|done].
  - destruct (js_le e pos) eqn:Hle.
    + split; [done|]. intros H. inversion H as [|? ? Hlt _]; subst.
      apply js_le_false in Hlt. congruence.
    + rewrite IH. split.
      * intros H. constructor; [by apply js_le_false|done].
      * by inversion 1.
Qed.

(** *** A closure that is not registered stays silent *)

Lemma calls_by_tick_quiet u pos a :
  NoDup (uid <$> timeupdate a) →
  u ∉ uid <$> timeupdate a →
  calls_by u (tick pos a) = calls_by u a.
Proof.
  intros Hnd Hu. rewrite tick_closed_form by done. unfold calls_by. simpl.
  rewrite List.filter_app, map_app.
  replace (List.filter (λ wc : Caller * Call, is_listener u wc.1)
             (flat_map (onTime_calls pos) (timeupdate a))) with
    (@nil (Caller * Call)); [by rewrite app_nil_r|].
  clear Hnd. induction (timeupdate a) as [|m l IH]; [done|].
  rewrite fmap_cons in Hu. apply not_elem_of_cons in Hu as [Hne Hu].
  simpl. replace (uid m =? u)%nat with false
    by (symmetry; apply Nat.eqb_neq; congruence).
  rewrite List.filter_app, <- IH by done.
  destruct (reached pos m); simpl; [|done].
  by replace (uid m =? u)%nat with false
    by (symmetry; apply Nat.eqb_neq; congruence).
Qed.

Lemma step_quiet u ev a :
  closures_ok a → (u < closures a)%nat → u ∉ uid <$> timeupdate a →
  closures_ok (step ev a) ∧ (u < closures (step ev a))%nat ∧
  (u ∉ uid <$> timeupdate (step ev a)) ∧
  (calls_by u (step ev a) = calls_by u a).
Proof.
  intros Hok Hlt Hu. destruct ev as [pos|card s e|]; simpl.
  - destruct Hok as [Hnd ?]. split; [by apply closures_ok_tick|].
    rewrite calls_by_tick_quiet by done.
    rewrite tick_closed_form by done. simpl. split; [done|]. split; [|done].
    intros Hin. by apply Hu, (filter_uids_subset (λ m, negb (reached pos m))).
  - split; [by apply closures_ok_click|].
    unfold playTrimBtn_click. destruct (trim card); [|done].
    destruct (js_le (or_zero e) (or_zero s)); [done|]. simpl.
    split; [lia|split].
    + rewrite fmap_app. apply not_elem_of_app. split; [done|].
      simpl. rewrite list_elem_of_singleton. lia.
    + unfold calls_by. simpl. rewrite !List.filter_app, !map_app. simpl.
      by rewrite !app_nil_r.
  - done.
Qed.

Lemma run_quiet u evs : ∀ a,
  closures_ok a → (u < closures a)%nat → u ∉ uid <$> timeupdate a →
  (u ∉ uid <$> timeupdate (run evs a)) ∧
  (calls_by u (run evs a) = calls_by u a).
Proof.
  induction evs as [|ev evs IH]; intros a Hok Hlt Hu; [done|].
  simpl. destruct (step_quiet u ev a Hok Hlt Hu) as (Hok' & Hlt' & Hu' & <-).
  by apply IH.
Qed.

Lemma closures_ticks samples a :
  closures_ok a → closures (ticks samples a) = closures a.
Proof.
  revert a. induction samples as [|pos samples IH]; intros a Hok; [done|].
  simpl. rewrite IH by by apply closures_ok_tick.
  destruct Hok as [Hnd _]. by rewrite tick_closed_form.
Qed.

(** The monitor of a click, on an element that may carry the monitors
    of earlier clicks. *)
Lemma click_monitor_run who card s e audio samples :
  closures_ok audio →
  is_Some (trim card) →
  (or_zero s < or_zero e)%Q →
  who (listener (closures audio)) = true →
  (∀ m', m' ∈ timeupdate audio → who (listener (uid m')) = false) →
  let a1 := (playTrimBtn_click card s e audio).1 in
  let m := mkOnTime (closures audio) (or_zero e) in
  match first_reached (or_zero e) 0 samples with
  | Some j =>
      pause_ticks who 0 samples a1 = [j] ∧
      paused (ticks samples a1) = true ∧
      registered m (ticks samples a1) = false
  | None =>
      pause_ticks who 0 samples a1 = [] ∧
      registered m (ticks samples a1) = true ∧
      (timeupdate audio = [] → paused (ticks samples a1) = false)
  end.
Proof.
  intros Hok Ht Hlt Hwm Hwho a1 m.
  pose proof (closures_ok_click card s e audio Hok) as [Hnd1 _].
  fold a1 in Hnd1.
  assert (timeupdate a1 = timeupdate audio ++ [m] ∧ paused a1 = false)
    as [Hl1 Hp1].
  { unfold a1. by rewrite (playTrimBtn_click_starts _ _ _ _ Ht Hlt). }
  pose proof (monitor_run who samples 0 a1 m Hnd1) as Hrun.
  change (endT m) with (or_zero e) in Hrun.
  destruct (first_reached (or_zero e) 0 samples); rewrite Hl1 in Hrun.
  - apply Hrun; [apply elem_of_app; right; left|done|].
    intros m' [Hm'|Hm']%elem_of_app Hw.
    + by rewrite (Hwho m' Hm') in Hw.
    + by apply list_elem_of_singleton in Hm'.
  - destruct Hrun as (? & ? & Hp); [apply elem_of_app; right; left|done| |].
    { intros m' [Hm'|Hm']%elem_of_app Hw.
      + by rewrite (Hwho m' Hm') in Hw.
      + by apply list_elem_of_singleton in Hm'. }
    split; [done|]. split; [by apply registered_elem|].
    intros Hidle. rewrite Hp, Hp1; [done|]. by rewrite Hidle.
Qed.

(** The monitor of a click is the only caller with its [uid]. *)
Lemma click_own_monitor_run card s e audio samples :
  closures_ok audio →
  is_Some (trim card) →
  (or_zero s < or_zero e)%Q →
  let a1 := (playTrimBtn_click card s e audio).1 in
  let m := mkOnTime (closures audio) (or_zero e) in
  match first_reached (or_zero e) 0 samples with
  | Some j =>
      pause_ticks (is_listener (uid m)) 0 samples a1 = [j] ∧
      paused (ticks samples a1) = true ∧
      registered m (ticks samples a1) = false
  | None =>
      pause_ticks (is_listener (uid m)) 0 samples a1 = [] ∧
      registered m (ticks samples a1) = true ∧
      (timeupdate audio = [] → paused (ticks samples a1) = false)
  end.
Proof.
  intros Hok Ht Hlt.
  apply (click_monitor_run (is_listener (closures audio))); try done.
  - apply Nat.eqb_refl.
  - intros m' Hm'. simpl. apply Nat.eqb_neq.
    destruct Hok as [_ Hall].
    pose proof (proj1 (Forall_forall _ _) Hall m' Hm') as Hm''.
    simpl in Hm''. lia.
Qed.

(** C6.  When the end read from the form is not past the start, the
    click handler leaves the audio element exactly as it was: no seek,
    no [play()], no listener added; and on a card that has a trim window
    it alerts that the trim times are invalid. *)
Theorem playTrimBtn_click_invalid_range card s e audio :
  (or_zero e <= or_zero s)%Q →
  (playTrimBtn_click card s e audio).1 = audio ∧
  (is_Some (trim card) →
   (playTrimBtn_click card s e audio).2 = Some "Invalid trim times."%string).
Proof.
  intros Hle. apply js_le_true in Hle. unfold playTrimBtn_click.
  destruct (trim card) as [t|]; simpl.
  - by rewrite Hle.
  - split; [done|]. by intros [? ?].
Qed.

Lemma playTrimBtn_click_invalid_range_witness :
  (playTrimBtn_click card_a (Num 5) (Num 5) createAudio
     = (createAudio, Some "Invalid trim times."%string)) ∧
  (playTrimBtn_click card_a (Num 5) (Num 2) createAudio
     = (createAudio, Some "Invalid trim times."%string)).
Proof.
  split.
  - destruct (playTrimBtn_click_invalid_range card_a (Num 5) (Num 5) createAudio)
      as [H1 H2]; [simpl; apply Qle_refl|].
    rewrite (surjective_pairing (playTrimBtn_click _ _ _ _)).
    rewrite H1, H2; [reflexivity|by eexists].
  - destruct (playTrimBtn_click_invalid_range card_a (Num 5) (Num 2) createAudio)
      as [H1 H2]; [simpl; discriminate|].
    rewrite (surjective_pairing (playTrimBtn_click _ _ _ _)).
    rewrite H1, H2; [reflexivity|by eexists].
Defined.

(** C7, as amended.  After a click with a well-formed range, over any
    sequence of playhead samples.  If some sample is at or past the end, the monitor
    of that click calls [pause()] during the tick of the first such
    sample and during no other tick, every earlier sample is below the
    end, and afterwards the element is paused and the monitor removed.
    If no sample is at or past the end, that monitor never calls
    [pause()] and stays registered.  On an element that carried no other
    monitor, these are the only [pause()] calls made by anyone, and in
    the second case the element is still playing. *)
Theorem monitor_pauses_at_first_sample_past_end card s e audio samples :
  closures_ok audio →
  is_Some (trim card) →
  (or_zero s < or_zero e)%Q →
  let a1 := (playTrimBtn_click card s e audio).1 in
  let m := mkOnTime (closures audio) (or_zero e) in
  match first_reached (or_zero e) 0 samples with
  | Some j =>
      pause_ticks (is_listener (uid m)) 0 samples a1 = [j] ∧
      (timeupdate audio = [] → pause_ticks (λ _, true) 0 samples a1 = [j]) ∧
      paused (ticks samples a1) = true ∧
      registered m (ticks samples a1) = false ∧
      ∃ pos, samples !! j = Some pos ∧ (or_zero e <= pos)%Q ∧
        ∀ k pos', (k < j)%nat → samples !! k = Some pos' → (pos' < or_zero e)%Q
  | None =>
      pause_ticks (is_listener (uid m)) 0 samples a1 = [] ∧
      (timeupdate audio = [] →
       pause_ticks (λ _, true) 0 samples a1 = [] ∧
       paused (ticks samples a1) = false) ∧
      registered m (ticks samples a1) = true ∧
      Forall (λ pos, (pos < or_zero e)%Q) samples
  end.
Proof.
  intros Hok Ht Hlt a1 m.
  pose proof (click_own_monitor_run card s e audio samples Hok Ht Hlt) as Hown.
  assert (timeupdate audio = [] →
          ∀ m', m' ∈ timeupdate audio → (λ _ : Caller, true) (listener (uid m')) = false)
    as Hnone.
  { intros -> m' Hm'. by apply elem_of_nil in Hm'. }
  pose proof (λ Hidle, click_monitor_run (λ _, true) card s e audio samples
                Hok Ht Hlt eq_refl (Hnone Hidle)) as Hall.
  fold a1 m in Hown, Hall.
  destruct (first_reached (or_zero e) 0 samples) as [j|] eqn:Hf.
  - destruct Hown as (? & ? & ?). split; [done|]. split; [|split; [done|split; [done|]]].
    + intros Hidle. by destruct (Hall Hidle) as (? & _).
    + destruct (first_reached_Some _ _ _ _ Hf) as (k & pos & -> & ? & ? & ?).
      by exists pos.
  - destruct Hown as (? & ? & ?). split; [done|]. split; [|split; [done|]].
    + intros Hidle. destruct (Hall Hidle) as (? & _ & Hp). split; [done|by apply Hp].
    + by apply (first_reached_None _ 0%nat).
Qed.

Lemma monitor_pauses_at_first_sample_past_end_witness :
  pause_ticks (λ _, true) 0 [9 # 10; 19 # 10; 29 # 10]%Q
    (playTrimBtn_click card_a (Num 0) (Num 2) createAudio).1 = [2%nat].
Proof.
  pose proof (monitor_pauses_at_first_sample_past_end card_a (Num 0) (Num 2)
                createAudio [9 # 10; 19 # 10; 29 # 10]%Q
                closures_ok_createAudio) as H.
  simpl in H. apply H; [by eexists|reflexivity|reflexivity].
Defined.

(** C7, as stated, fails when the monitor of an earlier click is still
    registered: after a click for the range 0 to 2 and a click for the
    range 0 to 4, over the samples 3, 3.5, 4, 5 the first sample at or
    past the end 4 is the third, yet [pause()] is called already during
    the tick of the sample 3, below that end, which leaves the element
    paused. *)
Lemma later_playback_paused_below_its_end :
  let a1 := (playTrimBtn_click card_a (Num 0) (Num 2) createAudio).1 in
  let a2 := (playTrimBtn_click card_a (Num 0) (Num 4) a1).1 in
  first_reached 4 0 [3; 7 # 2; 4; 5]%Q = Some 2%nat ∧
  pause_ticks (λ _, true) 0 [3; 7 # 2; 4; 5]%Q a2 = [0%nat; 2%nat] ∧
  paused a2 = false ∧
  paused (tick 3 a2) = true.
Proof. repeat split; reflexivity. Qed.

(** C8, as amended.  Once a tick has reached the end of an invocation,
    its monitor is removed and never runs again, whatever ticks, clicks
    and navigations follow: it stays removed and makes no further call
    on the element.  The page has no cancel: clearing the view leaves
    the monitor registered. *)
Theorem monitor_quiet_after_boundary_pause card s e audio samples later :
  closures_ok audio →
  is_Some (trim card) →
  (or_zero s < or_zero e)%Q →
  let a1 := (playTrimBtn_click card s e audio).1 in
  let m := mkOnTime (closures audio) (or_zero e) in
  let a2 := ticks samples a1 in
  (is_Some (first_reached (or_zero e) 0 samples) →
   registered m a2 = false ∧
   registered m (run later a2) = false ∧
   calls_by (uid m) (run later a2) = calls_by (uid m) a2) ∧
  registered m (clear_main a1) = true.
Proof.
  intros Hok Ht Hlt a1 m a2.
  pose proof (click_own_monitor_run card s e audio samples Hok Ht Hlt) as Hrun.
  fold a1 m in Hrun. split.
  - intros [j Hj]. rewrite Hj in Hrun. destruct Hrun as (_ & _ & Hreg).
    fold a2 in Hreg. split; [done|].
    pose proof (closures_ok_click card s e audio Hok) as Hok1. fold a1 in Hok1.
    destruct (run_quiet (uid m) later a2) as [Hu Hc].
    + by apply closures_ok_ticks.
    + unfold a2. rewrite closures_ticks by done. unfold a1.
      rewrite (playTrimBtn_click_starts _ _ _ _ Ht Hlt). simpl. lia.
    + by apply registered_false.
    + split; [by apply registered_false|done].
  - apply registered_elem. unfold a1.
    rewrite (playTrimBtn_click_starts _ _ _ _ Ht Hlt). simpl.
    apply elem_of_app. right. left.
Qed.

Lemma monitor_quiet_after_boundary_pause_witness :
  let a2 := ticks [9 # 10; 19 # 10; 29 # 10]%Q
              (playTrimBtn_click card_a (Num 0) (Num 2) createAudio).1 in
  let later := [ev_tick 3; ev_clear_main; ev_tick (7 # 2)]%Q in
  calls_by 0 (run later a2) = calls_by 0 a2.
Proof.
  pose proof (monitor_quiet_after_boundary_pause card_a (Num 0) (Num 2)
                createAudio [9 # 10; 19 # 10; 29 # 10]%Q
                [ev_tick 3; ev_clear_main; ev_tick (7 # 2)]%Q
                closures_ok_createAudio) as H.
  destruct H as [H _]; [by eexists|reflexivity|].
  destruct H as (_ & _ & Hc); [by eexists|]. exact Hc.
Defined.

(** C8, as stated, fails for an invocation that ends by leaving the
    view: after [main] is cleared the monitor still runs on the next
    tick, reads the playhead and pauses the element. *)
Lemma monitor_fires_after_view_cleared :
  let a1 := (playTrimBtn_click card_a (Num 0) (Num 2) createAudio).1 in
  let a2 := clear_main a1 in
  inDocument a2 = false ∧
  calls (tick (29 # 10) a2) =
    calls a2 ++ [(listener 0, GetCurrentTime); (listener 0, Pause)].
Proof. split; reflexivity. Qed.

End Playback.

(** ** Max tempo *)

Section MaxTempo.

Implicit Types (card : Card) (xs : list Z).

Lemma Math_max_0_nonneg xs : (0 ≤ Math_max_0 xs)%Z.
Proof. induction xs as [|x xs IH]; simpl; lia. Qed.

Lemma Math_max_0_app xs ys :
  Math_max_0 (xs ++ ys) = Z.max (Math_max_0 xs) (Math_max_0 ys).
Proof.
  induction xs as [|x xs IH]; simpl.
  - pose proof (Math_max_0_nonneg ys). lia.
  - rewrite IH. lia.
Qed.

Lemma Math_max_0_upper xs : Forall (λ x, (x ≤ Math_max_0 xs)%Z) xs.
Proof.
  induction xs as [|x xs IH]; simpl; constructor; [lia|].
  eapply Forall_impl; [exact IH|]. simpl. intros y ?. lia.
Qed.

Lemma Math_max_0_elem xs :
  Forall (λ x, (0 ≤ x)%Z) xs → xs ≠ [] → Math_max_0 xs ∈ xs.
Proof.
  induction xs as [|x xs IH]; [done|]. intros Hpos _.
  inversion Hpos as [|? ? Hx Hxs]; subst. simpl.
  destruct xs as [|y xs].
  - simpl. rewrite Z.max_l by lia. left.
  - destruct (Z.max_spec x (Math_max_0 (y :: xs))) as [[_ ->]|[_ ->]].
    + right. by apply IH.
    + left.
Qed.

(** The loop of [renderCardList] computes [Math.max] of zero and every
    recorded tempo. *)
Lemma maxTempo_Math_max_0 card : maxTempo card = Math_max_0 (all_tempos card).
Proof.
  unfold maxTempo, all_tempos. destruct (sessions card) as [ss|]; [|done].
  assert (∀ acc, (0 ≤ acc)%Z →
    fold_left
      (λ maxTempo sess,
         match temposAchieved sess with
         | Some tempos =>
             if (Math_max_0 tempos >? maxTempo)%Z
             then Math_max_0 tempos else maxTempo
         | None => maxTempo
         end) ss acc =
    Z.max acc
      (Math_max_0 (concat (map (λ sess, default [] (temposAchieved sess)) ss))))
    as H.
  { induction ss as [|sess ss IH]; intros acc Hacc; simpl; [lia|].
    rewrite Math_max_0_app.
    destruct (temposAchieved sess) as [ts|]; simpl.
    - pose proof (Math_max_0_nonneg ts).
      destruct (Z.gtb_spec (Math_max_0 ts) acc); rewrite IH by lia; lia.
    - rewrite IH by lia. lia. }
  rewrite H by lia.
  pose proof (Math_max_0_nonneg
                (concat (map (λ sess, default [] (temposAchieved sess)) ss))).
  lia.
Qed.

(** C9.  For a card whose recorded tempos are not negative, the max
    tempo is 0 when no tempo is recorded, and otherwise it is one of the
    recorded tempos and no recorded tempo exceeds it. *)
Theorem maxTempo_is_maximum card :
  Forall (λ t, (0 ≤ t)%Z) (all_tempos card) →
  (all_tempos card = [] → maxTempo card = 0) ∧
  (all_tempos card ≠ [] →
   maxTempo card ∈ all_tempos card ∧
   Forall (λ t, (t ≤ maxTempo card)%Z) (all_tempos card)).
Proof.
  intros Hpos. rewrite maxTempo_Math_max_0. split.
  - by intros ->.
  - intros Hne. split; [by apply Math_max_0_elem|apply Math_max_0_upper].
Qed.

Lemma maxTempo_is_maximum_witness :
  maxTempo card_three_sessions = 120 ∧
  maxTempo card_three_sessions ∈ [100; 120; 90] ∧
  maxTempo card_a = 0.
Proof.
  split; [reflexivity|]. split.
  - apply (maxTempo_is_maximum card_three_sessions); [|discriminate].
    simpl. repeat constructor; lia.
  - apply (maxTempo_is_maximum card_a); [constructor|reflexivity].
Defined.

End MaxTempo.

(** ** Sorting *)

Section Sorting.

Context {A : Type} (before : A → A → bool).

Lemma insert_sorted_Permutation x l : insert_sorted before x l ≡ₚ x :: l.
Proof.
  induction l as [|y l IH]; [done|]. simpl.
  destruct (before x y); [done|]. rewrite IH. apply Permutation_swap.
Qed.

Lemma stable_sort_Permutation l : stable_sort before l ≡ₚ l.
Proof.
  induction l as [|x l IH]; [done|]. simpl.
  rewrite insert_sorted_Permutation. by f_equiv.
Qed.

Lemma stable_sort_nil l : stable_sort before l = [] ↔ l = [].
Proof.
  split; [|by intros ->]. intros H.
  apply Permutation_nil_r. by rewrite <- H, stable_sort_Permutation.
Qed.

Hypothesis before_total : ∀ x y, before x y = true ∨ before y x = true.

Lemma insert_sorted_Sorted x l :
  Sorted (λ a b, before a b = true) l →
  Sorted (λ a b, before a b = true) (insert_sorted before x l).
Proof.
  induction 1 as [|y l Hs IH Hhd]; simpl.
  - by repeat constructor.
  - destruct (before x y) eqn:Hxy.
    + by repeat constructor.
    + constructor; [done|].
      destruct Hhd as [|z l Hyz]; simpl.
      * constructor. destruct (before_total x y); congruence.
      * destruct (before x z); constructor; [|done].
        destruct (before_total x y); congruence.
Qed.

Lemma stable_sort_Sorted l :
  Sorted (λ a b, before a b = true) (stable_sort before l).
Proof.
  induction l as [|x l IH]; simpl; [constructor|].
  by apply insert_sorted_Sorted.
Qed.

(** Elements that may precede one another keep their order. *)
Lemma stable_sort_stable (P : A → bool) l :
  (∀ x y, P x = true → P y = true → before x y = true) →
  List.filter P (stable_sort before l) = List.filter P l.
Proof.
  intros HP.
  assert (∀ x l, List.filter P (insert_sorted before x l) = List.filter P (x :: l))
    as Hins.
  { intros x l'. induction l' as [|y l' IH]; [done|]. simpl.
    destruct (before x y) eqn:Hxy; [done|]. simpl. rewrite IH. simpl.
    destruct (P x) eqn:Hx, (P y) eqn:Hy; try done.
    by rewrite HP in Hxy. }
  induction l as [|x l IH]; [done|]. simpl. rewrite Hins. simpl.
  by rewrite IH.
Qed.

End Sorting.

(** ** The card list *)

Section CardListProps.

Local Open Scope list_scope.

Implicit Types (db : IDB) (c card : Card) (cards : list Card).

Lemma by_updatedAt_desc_total a b :
  by_updatedAt_desc a b = true ∨ by_updatedAt_desc b a = true.
Proof. unfold by_updatedAt_desc. rewrite !Z.leb_le. lia. Qed.

Lemma getAllCards_Permutation db :
  getAllCards db ≡ₚ (map_to_list (cards db)).*2.
Proof. unfold getAllCards. by rewrite stable_sort_Permutation. Qed.

Lemma getAllCards_elem db c :
  c ∈ getAllCards db ↔ ∃ k, cards db !! k = Some c.
Proof.
  rewrite getAllCards_Permutation, list_elem_of_fmap. split.
  - intros ([k c'] & -> & Hin). exists k. by apply elem_of_map_to_list.
  - intros [k Hk]. exists (k, c). split; [done|]. by apply elem_of_map_to_list.
Qed.

Lemma getAllCards_nil db : getAllCards db = [] ↔ cards db = ∅.
Proof.
  unfold getAllCards. split; [intros H%fmap_nil_inv%stable_sort_nil; by apply map_to_list_empty_iff|intros ->; by rewrite map_to_list_empty].

Qed.

Lemma stable_sort_updatedAt cards :
  StronglySorted (λ a b, (updatedAt b ≤ updatedAt a)%Z)
                 (stable_sort by_updatedAt_desc cards).
Proof.
  apply Sorted.Sorted_StronglySorted.
  - intros a b c' ? ?. lia.
  - pose proof (stable_sort_Sorted by_updatedAt_desc by_updatedAt_desc_total cards)
      as Hs.
    induction Hs as [|a l _ IH Hhd]; constructor; [done|].
    destruct Hhd as [|b l Hab]; constructor. by apply Z.leb_le.
Qed.

(** X1.  [renderCardList] on a non-empty array shows one item per card,
    most recently updated first: the cards shown are a permutation of
    the array, in descending [updatedAt] order, and cards with the same
    [updatedAt] keep the order they had in the array. *)
Theorem renderCardList_most_recent_first cards :
  cards ≠ [] →
  ∃ sorted,
    renderCardList cards = CardList (render_card <$> sorted) ∧
    sorted ≡ₚ cards ∧
    StronglySorted (λ a b, (updatedAt b ≤ updatedAt a)%Z) sorted ∧
    ∀ t, List.filter (λ c, (updatedAt c =? t)%Z) sorted =
         List.filter (λ c, (updatedAt c =? t)%Z) cards.
Proof.
  intros Hne. exists (stable_sort by_updatedAt_desc cards).
  split; [by destruct cards|]. split; [apply stable_sort_Permutation|].
  split; [apply stable_sort_updatedAt|].
  intros t. apply stable_sort_stable.
  intros x y Hx%Z.eqb_eq Hy%Z.eqb_eq. apply Z.leb_le. lia.
Qed.

Lemma renderCardList_most_recent_first_witness :
  ∃ sorted,
    renderCardList [card_a; card_a_saved] = CardList (render_card <$> sorted) ∧
    sorted ≡ₚ [card_a; card_a_saved] ∧
    StronglySorted (λ a b, (updatedAt b ≤ updatedAt a)%Z) sorted ∧
    ∀ t, List.filter (λ c, (updatedAt c =? t)%Z) sorted =
         List.filter (λ c, (updatedAt c =? t)%Z) [card_a; card_a_saved].
Proof.
  apply (renderCardList_most_recent_first [card_a; card_a_saved]).
  discriminate.
Defined.

(** X2.  [loadCards] shows the no-cards message exactly when the cards
    store is empty; otherwise it shows one item for every stored card
    and for nothing else, most recently updated first. *)
Theorem loadCards_shows_every_card db :
  (cards db = ∅ → ∃ p, loadCards db = NoCards p) ∧
  (cards db ≠ ∅ →
   ∃ sorted,
     loadCards db = CardList (render_card <$> sorted) ∧
     length sorted = size (cards db) ∧
     (∀ c, c ∈ sorted ↔ ∃ k, cards db !! k = Some c) ∧
     StronglySorted (λ a b, (updatedAt b ≤ updatedAt a)%Z) sorted).
Proof.
  unfold loadCards. split.
  - intros He%getAllCards_nil. rewrite He. by eexists.
  - intros Hne. exists (stable_sort by_updatedAt_desc (getAllCards db)).
    split; [|split; [|split]].
    + destruct (getAllCards db) eqn:E; [|done].
      by apply getAllCards_nil in E.
    + rewrite stable_sort_Permutation, getAllCards_Permutation, length_fmap.
      apply length_map_to_list.
    + intros c. rewrite stable_sort_Permutation. apply getAllCards_elem.
    + apply stable_sort_updatedAt.
Qed.

Lemma loadCards_shows_every_card_witness :
  ∃ sorted,
    loadCards (idb world_b) = CardList (render_card <$> sorted) ∧
    length sorted = size (cards (idb world_b)) ∧
    (∀ c, c ∈ sorted ↔ ∃ k, cards (idb world_b) !! k = Some c) ∧
    StronglySorted (λ a b, (updatedAt b ≤ updatedAt a)%Z) sorted.
Proof.
  apply (loadCards_shows_every_card (idb world_b)).
  simpl. apply insert_non_empty.
Defined.

Lemma Math_max_0_zero xs :
  Math_max_0 xs = 0 ↔ Forall (λ t, (t ≤ 0)%Z) xs.
Proof.
  split.
  - intros H. pose proof (Math_max_0_upper xs) as Hu. rewrite H in Hu. exact Hu.
  - induction 1 as [|x xs Hx _ IH]; [done|]. simpl. rewrite IH. lia.
Qed.

(** X3.  The tempo line of a card in the list reads [No sessions]
    exactly when no recorded tempo is positive, whether or not the card
    has sessions; otherwise it is the template [Max Tempo: ... BPM]
    filled with the card's max tempo, whatever text the Number-to-string
    conversion gives that number.  A card is shown as [Untitled] exactly
    when its title is empty or is that word. *)
Theorem render_card_texts (toString : Z → string) card :
  (tempo_text toString (item_tempoP (render_card card)) = "No sessions"%string ↔
   Forall (λ t, (t ≤ 0)%Z) (all_tempos card)) ∧
  (item_tempoP (render_card card) = NoSessions ↔
   Forall (λ t, (t ≤ 0)%Z) (all_tempos card)) ∧
  (¬ Forall (λ t, (t ≤ 0)%Z) (all_tempos card) →
   item_tempoP (render_card card) = MaxTempoBPM (maxTempo card) ∧
   maxTempo card ∈ all_tempos card ∧
   tempo_text toString (item_tempoP (render_card card)) =
   ("Max Tempo: " +:+ toString (maxTempo card) +:+ " BPM")%string) ∧
  (item_h3 (render_card card) = "Untitled"%string ↔
   title card = ""%string ∨ title card = "Untitled"%string).
Proof.
  unfold render_card. simpl. rewrite <- Math_max_0_zero, <- maxTempo_Math_max_0.
  pose proof (Math_max_0_nonneg (all_tempos card)) as Hn.
  rewrite <- maxTempo_Math_max_0 in Hn.
  assert ((0 < maxTempo card)%Z → maxTempo card ∈ all_tempos card) as Hin.
  { rewrite maxTempo_Math_max_0. clear Hn.
    induction (all_tempos card) as [|x xs IH]; simpl; [lia|]. intros Hpos.
    destruct (Z.max_spec x (Math_max_0 xs)) as [[_ Hm]|[_ Hm]]; rewrite Hm in *.
    - right. by apply IH.
    - left. }
  destruct (Z.gtb_spec (maxTempo card) 0) as [Hgt|Hle].
  - split; [|split; [|split]].
    + split; [discriminate|lia].
    + split; [discriminate|lia].
    + intros _. split; [done|]. split; [by apply Hin|done].
    + destruct (decide (title card = ""%string)) as [He|Hne].
      * split; auto.
      * split; [auto|]. by intros [?|?].
  - split; [|split; [|split]].
    + split; [lia|done].
    + split; [lia|done].
    + lia.
    + destruct (decide (title card = ""%string)) as [He|Hne].
      * split; auto.
      * split; [auto|]. by intros [?|?].
Qed.

Lemma render_card_texts_witness :
  item_tempoP (render_card card_three_sessions) = MaxTempoBPM 120 ∧
  tempo_text pretty (item_tempoP (render_card card_three_sessions)) =
  ("Max Tempo: " +:+ pretty (maxTempo card_three_sessions) +:+ " BPM")%string.
Proof.
  destruct (render_card_texts pretty card_three_sessions) as (_ & _ & H & _).
  destruct H as (H1 & _ & H2).
  - intros H. simpl in H. inversion H as [|? ? Hle _]. lia.
  - split; [exact H1|exact H2].
Defined.

End CardListProps.

(** ** The repository: frame and composition *)

Section RepositoryMore.

Implicit Types (w : World) (db : IDB) (c card : Card) (l : ref)
  (blob : option Blob) (p : Blob) (ev : TxEvent) (key k : string).

Lemma apply_op_save_other c blob now ev db k :
  k ≠ id c →
  getCard k (apply_op (op_save c blob now ev) db) = getCard k db ∧
  getBlob k (apply_op (op_save c blob now ev) db) = getBlob k db.
Proof.
  intros Hne. unfold getCard, getBlob. simpl.
  destruct ev; simpl; try done.
  rewrite saveCard_exec_db. simpl. rewrite saveCard_exec_id.
  rewrite lookup_insert_ne by done.
  destruct blob; simpl; [|done]. by rewrite lookup_insert_ne.
Qed.

(** X4.  [saveCard] and [deleteCard] touch only the records stored
    under the id they are given: every card and payload under another
    key reads back as before, whatever the transaction does. *)
Theorem repository_writes_one_id w l c blob now ev k :
  objs w !! l = Some c →
  k ≠ id c →
  ∃ w' r,
    saveCard l blob now ev w = Some (w', r) ∧
    getCard k (idb w') = getCard k (idb w) ∧
    getBlob k (idb w') = getBlob k (idb w) ∧
    getCard k (idb (deleteCard (id c) ev w).1) = getCard k (idb w) ∧
    getBlob k (idb (deleteCard (id c) ev w).1) = getBlob k (idb w).
Proof.
  intros Hl Hne. rewrite (saveCard_unfold _ _ _ _ _ _ Hl). eexists _, _.
  split; [done|].
  destruct (apply_op_save_other c blob now ev (idb w) k Hne) as [H1 H2].
  split; [exact H1|]. split; [exact H2|].
  unfold getCard, getBlob. destruct ev; simpl; try done.
  by rewrite !lookup_delete_ne.
Qed.

Lemma repository_writes_one_id_witness :
  ∃ w' r,
    saveCard 0%nat (Some blob_a) 9 tx_complete world_b = Some (w', r) ∧
    getCard "b" (idb w') = getCard "b" (idb world_b) ∧
    getBlob "b" (idb w') = getBlob "b" (idb world_b) ∧
    getCard "b" (idb (deleteCard "a" tx_complete world_b).1)
      = getCard "b" (idb world_b) ∧
    getBlob "b" (idb (deleteCard "a" tx_complete world_b).1)
      = getBlob "b" (idb world_b).
Proof.
  apply (repository_writes_one_id world_b 0%nat card_a_saved (Some blob_a) 9
           tx_complete "b"); [reflexivity|discriminate].
Defined.

(** X5.  [saveCard] without a payload never changes the payload store:
    editing a card or adding a session keeps the audio stored under
    every id, whatever the transaction does. *)
Theorem saveCard_null_keeps_payloads w l c now ev :
  objs w !! l = Some c →
  ∃ w' r,
    saveCard l None now ev w = Some (w', r) ∧
    blobs (idb w') = blobs (idb w).
Proof.
  intros Hl. rewrite (saveCard_unfold _ _ _ _ _ _ Hl). eexists _, _.
  split; [done|]. by destruct ev.
Qed.

Lemma saveCard_null_keeps_payloads_witness :
  ∃ w' r,
    saveCard 0%nat None 9 tx_complete world_b = Some (w', r) ∧
    blobs (idb w') = blobs (idb world_b).
Proof.
  apply (saveCard_null_keeps_payloads world_b 0%nat card_a_saved 9 tx_complete).
  reflexivity.
Defined.

(** X6.  Saving a card with a payload under an id that holds nothing
    and then deleting that id, both transactions completing, gives back
    the database as it was before the save. *)
Theorem saveCard_then_deleteCard w l c p now :
  objs w !! l = Some c →
  getCard (id c) (idb w) = None →
  getBlob (id c) (idb w) = None →
  ∃ w',
    saveCard l (Some p) now tx_complete w = Some (w', Resolved) ∧
    idb (deleteCard (id c) tx_complete w').1 = idb w.
Proof.
  intros Hl Hc Hb. rewrite (saveCard_unfold _ _ _ _ _ _ Hl). eexists.
  split; [done|]. simpl. unfold getCard, getBlob in *.
  unfold deleteCard_exec, blobStore_delete, cardStore_delete. simpl.
  destruct (idb w) as [cs bs]. simpl in *.
  by rewrite !delete_insert_id.
Qed.

Lemma saveCard_then_deleteCard_witness :
  ∃ w',
    saveCard 0%nat (Some blob_a) 9 tx_complete world_a = Some (w', Resolved) ∧
    idb (deleteCard "a" tx_complete w').1 = idb world_a.
Proof.
  apply (saveCard_then_deleteCard world_a 0%nat card_a blob_a 9); reflexivity.
Defined.

End RepositoryMore.

(** ** The add and edit forms *)

Section Forms.

Implicit Types (w : World) (db : IDB) (c card : Card) (l : ref)
  (ev : TxEvent) (key k : string).

Lemma AddView_rejects_iff s e :
  AddView.rejects s e = false ↔ (0 <= s)%Q ∧ (s < e)%Q.
Proof.
  split; [apply AddView_rejects_false|]. intros [Hs Hlt].
  unfold AddView.rejects.
  rewrite (proj2 (js_lt_false s 0) Hs), (proj2 (js_le_false e s) Hlt).
  rewrite (proj2 (js_le_false e 0)); [done|]. by eapply Qle_lt_trans.
Qed.

Lemma fresh_ref_unused w : objs w !! fresh (dom (objs w)) = None.
Proof. apply not_elem_of_dom, is_fresh. Qed.

(** X7.  With a file chosen and a window [0 <= start < end], the Save
    handler of the add view, when its transaction completes, stores the
    new card under its fresh id together with the chosen file as its
    payload: the card carries the id as [audioBlobId], the window, an
    empty session list and the save time; the chosen file is cleared;
    and the records of every other id are left as they were. *)
Theorem AddView_saveBtn_click_stores_card f t_created t_updated t_save w file :
  selectedFile w = Some file →
  (0 <= or_zero (AddView.startInput f))%Q →
  (or_zero (AddView.startInput f) < or_zero (AddView.endInput f))%Q →
  ∃ w' r,
    AddView.saveBtn_click f t_created t_updated t_save tx_complete w
      = (w', Rendered) ∧
    selectedFile w' = None ∧
    getCard (AddView.randomUUID f) (idb w') = Some r ∧
    getBlob (AddView.randomUUID f) (idb w') = Some file ∧
    r = set_updatedAt t_save
          (set_audioBlobId (Some (AddView.randomUUID f))
             (AddView.new_card f (or_zero (AddView.startInput f))
                (or_zero (AddView.endInput f)) t_created t_updated)) ∧
    trim_ok r ∧
    (∀ k, k ≠ AddView.randomUUID f →
          getCard k (idb w') = getCard k (idb w) ∧
          getBlob k (idb w') = getBlob k (idb w)).
Proof.
  intros Hf Hs Hlt. unfold AddView.saveBtn_click. rewrite Hf.
  rewrite (proj2 (AddView_rejects_iff _ _) (conj Hs Hlt)).
  set (card := AddView.new_card _ _ _ _ _).
  set (w1 := mkWorld _ _ _).
  rewrite (saveCard_unfold w1 _ card); [|by apply lookup_insert_eq].
  simpl. eexists _, _. split; [reflexivity|]. simpl.
  unfold getCard, getBlob. simpl. rewrite !lookup_insert_eq.
  split; [done|]. split; [done|]. split; [done|]. split; [done|].
  split; [exact (conj Hs Hlt)|].
  intros k Hne. by rewrite !lookup_insert_ne.
Qed.

Lemma AddView_saveBtn_click_stores_card_witness :
  ∃ w' r,
    AddView.saveBtn_click form_add_b 10 10 11 tx_complete world_c
      = (w', Rendered) ∧
    selectedFile w' = None ∧
    getCard "b" (idb w') = Some r ∧
    getBlob "b" (idb w') = Some blob_a ∧
    r = set_updatedAt 11
          (set_audioBlobId (Some "b") (AddView.new_card form_add_b 1 4 10 10)) ∧
    trim_ok r ∧
    (∀ k, k ≠ "b"%string →
          getCard k (idb w') = getCard k (idb world_c) ∧
          getBlob k (idb w') = getBlob k (idb world_c)).
Proof.
  apply (AddView_saveBtn_click_stores_card form_add_b 10 10 11 world_c blob_a);
    [reflexivity|discriminate|reflexivity].
Defined.

(** X8.  The Save handler of the add view changes nothing and alerts
    when no file is chosen, and when the window is not [0 <= start < end]
    (an empty field counts as 0).  When the transaction fails with an
    error it alerts, the database is unchanged and the chosen file is
    kept. *)
Theorem AddView_saveBtn_click_refuses f t_created t_updated t_save ev w :
  (selectedFile w = None →
   AddView.saveBtn_click f t_created t_updated t_save ev w
     = (w, Alert "Please choose an audio file.")) ∧
  (is_Some (selectedFile w) →
   ¬ ((0 <= or_zero (AddView.startInput f))%Q ∧
      (or_zero (AddView.startInput f) < or_zero (AddView.endInput f))%Q) →
   AddView.saveBtn_click f t_created t_updated t_save ev w
     = (w, Alert "Please enter valid start and end times.")) ∧
  (is_Some (selectedFile w) →
   (0 <= or_zero (AddView.startInput f))%Q →
   (or_zero (AddView.startInput f) < or_zero (AddView.endInput f))%Q →
   ∃ w',
     AddView.saveBtn_click f t_created t_updated t_save tx_error w
       = (w', Alert "Failed to save card.") ∧
     idb w' = idb w ∧ selectedFile w' = selectedFile w).
Proof.
  unfold AddView.saveBtn_click. split; [|split].
  - by intros ->.
  - intros [file ->] Hbad.
    destruct (AddView.rejects _ _) eqn:E; [done|].
    by apply AddView_rejects_iff in E.
  - intros [file ->] Hs Hlt.
    rewrite (proj2 (AddView_rejects_iff _ _) (conj Hs Hlt)).
    set (card := AddView.new_card _ _ _ _ _).
    set (w1 := mkWorld _ _ _).
    rewrite (saveCard_unfold w1 _ card); [|by apply lookup_insert_eq].
    simpl. by eexists.
Qed.

Lemma AddView_saveBtn_click_refuses_witness :
  AddView.saveBtn_click form_add_b 10 10 11 tx_complete world_a
    = (world_a, Alert "Please choose an audio file.") ∧
  AddView.saveBtn_click
    (AddView.mkForm "b" "" "" None "" [] (Num 4) NaN not_started not_started)
    10 10 11 tx_complete world_c
    = (world_c, Alert "Please enter valid start and end times.") ∧
  ∃ w',
    AddView.saveBtn_click form_add_b 10 10 11 tx_error world_c
      = (w', Alert "Failed to save card.") ∧
    idb w' = idb world_c ∧ selectedFile w' = selectedFile world_c.
Proof.
  split; [|split].
  - apply (AddView_saveBtn_click_refuses form_add_b 10 10 11 tx_complete world_a).
    reflexivity.
  - apply (AddView_saveBtn_click_refuses
             (AddView.mkForm "b" "" "" None "" [] (Num 4) NaN
                             not_started not_started)
             10 10 11 tx_complete world_c); [by eexists|].
    simpl. intros [_ H]. discriminate H.
  - apply (AddView_saveBtn_click_refuses form_add_b 10 10 11 tx_error world_c);
      [by eexists|discriminate|reflexivity].
Defined.

(** X9.  The Save Changes handler of the card view, for the card object
    of the view.  When the end is not past the start it alerts and
    changes nothing, not even the object.  Otherwise it edits the object
    before saving: the object keeps its id, creation time, [audioBlobId]
    and sessions and takes the form's title and window; no payload is
    touched; when the transaction completes the stored record is the
    edited object; when it fails with an error the handler alerts and the
    database is unchanged, while the object keeps the edits. *)
Theorem saveMetaBtn_click_effects l f now ev w c :
  objs w !! l = Some c →
  ((or_zero (CardView.endEdit f) <= or_zero (CardView.startEdit f))%Q →
   CardView.saveMetaBtn_click l f now ev w
     = Some (w, Alert "End must be greater than start.")) ∧
  ((or_zero (CardView.startEdit f) < or_zero (CardView.endEdit f))%Q →
   ∃ w' r c',
     CardView.saveMetaBtn_click l f now ev w = Some (w', r) ∧
     objs w' !! l = Some c' ∧
     id c' = id c ∧ createdAt c' = createdAt c ∧
     audioBlobId c' = audioBlobId c ∧ sessions c' = sessions c ∧
     title c' = CardView.titleEdit f ∧
     trim c' = Some (mkTrim (or_zero (CardView.startEdit f))
                            (or_zero (CardView.endEdit f))) ∧
     updatedAt c' = now ∧
     blobs (idb w') = blobs (idb w) ∧
     (ev = tx_complete → r = Rendered ∧ getCard (id c) (idb w') = Some c') ∧
     (ev = tx_error → r = Alert "Failed to update." ∧ idb w' = idb w)).
Proof.
  intros Hl. unfold CardView.saveMetaBtn_click. split.
  - intros Hle. apply js_le_true in Hle. by rewrite Hle.
  - intros Hlt. apply js_le_false in Hlt. rewrite Hlt, Hl. simpl.
    set (card := CardView.edit_card _ _ _ _).
    set (w1 := mkWorld _ _ _).
    rewrite (saveCard_unfold w1 _ card); [|by apply lookup_insert_eq].
    simpl. eexists _, _, _. split; [reflexivity|]. simpl.
    rewrite lookup_insert_eq. split; [reflexivity|].
    do 7 (split; [done|]). split; [by destruct ev|]. split.
    + intros ->. split; [done|]. unfold getCard. simpl. apply lookup_insert_eq.
    + by intros ->.
Qed.

Lemma saveMetaBtn_click_effects_witness :
  CardView.saveMetaBtn_click 0%nat
    (CardView.mkForm (Num 3) (Num 3) "x" "" None "" [] mastered mastered)
    12 tx_complete world_b
    = Some (world_b, Alert "End must be greater than start.") ∧
  ∃ w' r c',
    CardView.saveMetaBtn_click 0%nat
      (CardView.mkForm (Num 1) (Num 3) "x" "" None "" [] mastered mastered)
      12 tx_error world_b = Some (w', r) ∧
    objs w' !! 0%nat = Some c' ∧ title c' = "x"%string ∧
    r = Alert "Failed to update." ∧ idb w' = idb world_b.
Proof.
  split.
  - apply (saveMetaBtn_click_effects 0%nat
             (CardView.mkForm (Num 3) (Num 3) "x" "" None "" [] mastered mastered)
             12 tx_complete world_b card_a_saved); [reflexivity|].
    simpl. apply Qle_refl.
  - destruct (saveMetaBtn_click_effects 0%nat
                (CardView.mkForm (Num 1) (Num 3) "x" "" None "" [] mastered mastered)
                12 tx_error world_b card_a_saved eq_refl) as [_ H].
    destruct H as (w' & r & c' & Hs & Ho & _ & _ & _ & _ & Ht & _ & _ & _ & _ & He);
      [reflexivity|].
    destruct (He eq_refl) as [Hr Hdb].
    exists w', r, c'. repeat split; assumption.
Defined.

End Forms.

(** ** Opening, extending and deleting a card *)

Section CardLife.

Local Open Scope list_scope.

Implicit Types (w : World) (db : IDB) (c card : Card) (l : ref)
  (ev : TxEvent) (key k : string).

Lemma stable_sort_date ss :
  StronglySorted (λ a b, (date b ≤ date a)%Z) (stable_sort by_date_desc ss).
Proof.
  apply Sorted.Sorted_StronglySorted.
  - intros a b c' ? ?. lia.
  - assert (∀ a b, by_date_desc a b = true ∨ by_date_desc b a = true) as Htot.
    { intros a b. unfold by_date_desc. rewrite !Z.leb_le. lia. }
    pose proof (stable_sort_Sorted by_date_desc Htot ss) as Hs.
    induction Hs as [|a l _ IH Hhd]; constructor; [done|].
    destruct Hhd as [|b l Hab]; constructor. by apply Z.leb_le.
Qed.

Lemma viewCard_unfold key w c blobKey :
  getCard key (idb w) = Some c →
  audioBlobId c = Some blobKey →
  viewCard key w =
  (mkWorld (<[fresh (dom (objs w)) := sort_sessions c]>
              (<[fresh (dom (objs w)) := c]> (objs w)))
           (idb w) (selectedFile w),
   ShowsCard (fresh (dom (objs w))) (getBlob blobKey (idb w))
             CardView.createAudio).
Proof. intros Hc Hb. unfold viewCard. by rewrite Hc, Hb. Qed.

Lemma sort_sessions_sessions c :
  match sessions c with
  | Some ss =>
      sessions (sort_sessions c) = Some (stable_sort by_date_desc ss)
  | None => sessions (sort_sessions c) = None
  end.
Proof.
  unfold sort_sessions. destruct (sessions c) as [[|s ss]|] eqn:E; simpl; by rewrite ?E.
Qed.

Lemma sort_sessions_others c :
  set_sessions (sessions c) (sort_sessions c) = c.
Proof.
  unfold sort_sessions. destruct c as [? ? ? ? ? ? ? ? ? ? ? [[|s ss]|]]; done.
Qed.

(** X10.  [viewCard] of a stored card whose [audioBlobId] is set opens
    it on a fresh object and leaves the database and every other object
    untouched.  The audio source is the payload stored under the card's
    [audioBlobId] (none when nothing is stored there).  The object equals
    the stored record except that its sessions are reordered: the same
    sessions, most recent first. *)
Theorem viewCard_opens_clone key w c blobKey :
  getCard key (idb w) = Some c →
  audioBlobId c = Some blobKey →
  ∃ w' l c',
    viewCard key w
      = (w', ShowsCard l (getBlob blobKey (idb w)) CardView.createAudio) ∧
    idb w' = idb w ∧
    objs w !! l = None ∧
    objs w' !! l = Some c' ∧
    (∀ l', l' ≠ l → objs w' !! l' = objs w !! l') ∧
    set_sessions (sessions c) c' = c ∧
    match sessions c with
    | Some ss =>
        ∃ ss', sessions c' = Some ss' ∧ ss' ≡ₚ ss ∧
               StronglySorted (λ a b, (date b ≤ date a)%Z) ss'
    | None => sessions c' = None
    end.
Proof.
  intros Hc Hb. rewrite (viewCard_unfold _ _ _ _ Hc Hb).
  eexists _, _, _. split; [reflexivity|]. simpl.
  split; [done|]. split; [apply fresh_ref_unused|].
  split; [apply lookup_insert_eq|].
  split; [intros l' Hne; by rewrite !lookup_insert_ne|].
  split; [apply sort_sessions_others|].
  pose proof (sort_sessions_sessions c) as Hs.
  destruct (sessions c) as [ss|]; [|done].
  eexists. split; [exact Hs|].
  split; [apply stable_sort_Permutation|apply stable_sort_date].
Qed.

Lemma viewCard_opens_clone_witness :
  ∃ w' l c',
    viewCard "a" world_b
      = (w', ShowsCard l (getBlob "a" (idb world_b)) CardView.createAudio) ∧
    idb w' = idb world_b ∧
    objs world_b !! l = None ∧
    objs w' !! l = Some c' ∧
    (∀ l', l' ≠ l → objs w' !! l' = objs world_b !! l') ∧
    set_sessions (sessions card_a_saved) c' = card_a_saved ∧
    ∃ ss', sessions c' = Some ss' ∧ ss' ≡ₚ [] ∧
           StronglySorted (λ a b, (date b ≤ date a)%Z) ss'.
Proof.
  apply (viewCard_opens_clone "a" world_b card_a_saved "a"); reflexivity.
Defined.

Lemma AddView_saveBtn_click_complete f t_created t_updated t_save w file :
  selectedFile w = Some file →
  (0 <= or_zero (AddView.startInput f))%Q →
  (or_zero (AddView.startInput f) < or_zero (AddView.endInput f))%Q →
  let card := AddView.new_card f (or_zero (AddView.startInput f))
                (or_zero (AddView.endInput f)) t_created t_updated in
  let r := set_updatedAt t_save
             (set_audioBlobId (Some (AddView.randomUUID f)) card) in
  AddView.saveBtn_click f t_created t_updated t_save tx_complete w =
  (mkWorld (<[fresh (dom (objs w)) := r]>
              (<[fresh (dom (objs w)) := card]> (objs w)))
           (mkIDB (<[AddView.randomUUID f := r]> (cards (idb w)))
                  (<[AddView.randomUUID f := file]> (blobs (idb w))))
           None,
   Rendered).
Proof.
  intros Hf Hs Hlt card r. unfold AddView.saveBtn_click. rewrite Hf.
  rewrite (proj2 (AddView_rejects_iff _ _) (conj Hs Hlt)).
  fold card. set (w1 := mkWorld _ _ _).
  by rewrite (saveCard_unfold w1 _ card); [|by apply lookup_insert_eq].
Qed.

(** X11.  A card added through the add form opens with its audio: after
    the Save handler of the add view completes, [viewCard] of the new id
    shows the card with the chosen file as audio source, on an object
    equal to the stored record. *)
Theorem add_then_viewCard_has_audio f t_created t_updated t_save w file :
  selectedFile w = Some file →
  (0 <= or_zero (AddView.startInput f))%Q →
  (or_zero (AddView.startInput f) < or_zero (AddView.endInput f))%Q →
  ∃ w1 w2 l r,
    AddView.saveBtn_click f t_created t_updated t_save tx_complete w
      = (w1, Rendered) ∧
    viewCard (AddView.randomUUID f) w1
      = (w2, ShowsCard l (Some file) CardView.createAudio) ∧
    getCard (AddView.randomUUID f) (idb w2) = Some r ∧
    objs w2 !! l = Some r.
Proof.
  intros Hf Hs Hlt.
  rewrite (AddView_saveBtn_click_complete _ _ _ _ _ _ Hf Hs Hlt).
  set (r := set_updatedAt t_save _).
  eexists _, _, _, r. split; [reflexivity|].
  rewrite (viewCard_unfold _ _ r (AddView.randomUUID f));
    [|unfold getCard; simpl; apply lookup_insert_eq|reflexivity].
  split; [|split].
  - unfold getBlob. simpl. rewrite lookup_insert_eq. reflexivity.
  - unfold getCard. simpl. apply lookup_insert_eq.
  - simpl. rewrite lookup_insert_eq. reflexivity.
Qed.

Lemma add_then_viewCard_has_audio_witness :
  ∃ w1 w2 l r,
    AddView.saveBtn_click form_add_b 10 10 11 tx_complete world_c
      = (w1, Rendered) ∧
    viewCard "b" w1 = (w2, ShowsCard l (Some blob_a) CardView.createAudio) ∧
    getCard "b" (idb w2) = Some r ∧
    objs w2 !! l = Some r.
Proof.
  apply (add_then_viewCard_has_audio form_add_b 10 10 11 world_c blob_a);
    [reflexivity|discriminate|reflexivity].
Defined.

End CardLife.

Section Sessions.

Local Open Scope list_scope.

Implicit Types (w : World) (db : IDB) (c card : Card) (l : ref)
  (ev : TxEvent) (key k : string) (s : Session).

Lemma saveMetaBtn_click_unfold l f now ev w c :
  objs w !! l = Some c →
  (or_zero (CardView.startEdit f) < or_zero (CardView.endEdit f))%Q →
  let card := CardView.edit_card f (or_zero (CardView.startEdit f))
                (or_zero (CardView.endEdit f)) c in
  CardView.saveMetaBtn_click l f now ev w =
  Some (mkWorld (<[l := set_updatedAt now card]> (<[l := card]> (objs w)))
                (apply_op (op_save card None now ev) (idb w))
                (selectedFile w),
        match settle ev with
        | Resolved => Rendered
        | Rejected => Alert "Failed to update."
        | Pending => Awaiting
        end).
Proof.
  intros Hl Hlt card. unfold CardView.saveMetaBtn_click.
  apply js_le_false in Hlt. rewrite Hlt, Hl. simpl. fold card.
  set (w1 := mkWorld _ _ _).
  by rewrite (saveCard_unfold w1 _ card); [|by apply lookup_insert_eq].
Qed.

(** X12.  Opening a card and saving the edit form stores its sessions
    most recent first: [viewCard] sorts the session list of the object
    in place, and the Save Changes handler writes that object back. *)
Theorem viewCard_then_save_reorders_sessions key w c blobKey ss f now :
  getCard key (idb w) = Some c →
  audioBlobId c = Some blobKey →
  sessions c = Some ss →
  (or_zero (CardView.startEdit f) < or_zero (CardView.endEdit f))%Q →
  ∃ w1 l src w2 r,
    viewCard key w = (w1, ShowsCard l src CardView.createAudio) ∧
    CardView.saveMetaBtn_click l f now tx_complete w1 = Some (w2, Rendered) ∧
    getCard (id c) (idb w2) = Some r ∧
    sessions r = Some (stable_sort by_date_desc ss) ∧
    stable_sort by_date_desc ss ≡ₚ ss ∧
    StronglySorted (λ a b, (date b ≤ date a)%Z) (stable_sort by_date_desc ss).
Proof.
  intros Hc Hb Hss Hlt. rewrite (viewCard_unfold _ _ _ _ Hc Hb).
  eexists _, _, _, _, _. split; [reflexivity|].
  rewrite (saveMetaBtn_click_unfold _ _ _ _ _ (sort_sessions c));
    [|apply lookup_insert_eq|done].
  split; [reflexivity|]. simpl. unfold getCard. simpl.
  replace (id (sort_sessions c)) with (id c)
    by (unfold sort_sessions; by destruct (sessions c) as [[|]|]).
  rewrite lookup_insert_eq. split; [reflexivity|]. simpl.
  pose proof (sort_sessions_sessions c) as Hs. rewrite Hss in Hs.
  split; [exact Hs|].
  split; [apply stable_sort_Permutation|apply stable_sort_date].
Qed.

Lemma viewCard_then_save_reorders_sessions_witness :
  ∃ w1 l src w2 r,
    viewCard "a" (mkWorld ∅ (mkIDB {[ "a"%string := card_two_dates ]} ∅) None)
      = (w1, ShowsCard l src CardView.createAudio) ∧
    CardView.saveMetaBtn_click l form_keep 12 tx_complete w1
      = Some (w2, Rendered) ∧
    getCard "a" (idb w2) = Some r ∧
    sessions r = Some [session_on 9 [100; 120]; session_on 3 [90]] ∧
    [session_on 9 [100; 120]; session_on 3 [90]]
      ≡ₚ [session_on 3 [90]; session_on 9 [100; 120]] ∧
    StronglySorted (λ a b, (date b ≤ date a)%Z)
      [session_on 9 [100; 120]; session_on 3 [90]].
Proof.
  apply (viewCard_then_save_reorders_sessions "a"
           (mkWorld ∅ (mkIDB {[ "a"%string := card_two_dates ]} ∅) None)
           card_two_dates "a"
           [session_on 3 [90]; session_on 9 [100; 120]]
           form_keep 12); reflexivity.
Defined.

(** The loop that fills [tempoValues]. *)
Lemma tempo_loop_elem fuel : ∀ (bpm t : Z),
  t ∈ SessionForm.tempo_loop fuel bpm ↔
  ∃ i : nat, (i < fuel)%nat ∧ t = (bpm + 10 * Z.of_nat i)%Z ∧ (t ≤ 240)%Z.
Proof.
  induction fuel as [|fuel IH]; intros bpm t; simpl.
  - split; [by intros ?%elem_of_nil|]. intros (i & ? & _). lia.
  - destruct (Z.leb_spec bpm 240) as [Hle|Hgt].
    + rewrite elem_of_cons, IH. split.
      * intros [->|(i & ? & -> & ?)].
        -- exists 0%nat. lia.
        -- exists (S i). lia.
      * intros ([|i] & ? & -> & ?).
        -- left. lia.
        -- right. exists i. lia.
    + split; [by intros ?%elem_of_nil|]. intros (i & ? & -> & ?). lia.
Qed.

(** X13.  The tempos a session form records are exactly the ticked
    values among 40, 50, ..., 240: each is a multiple of ten between 40
    and 240, hence positive, and every ticked value in that range is
    recorded. *)
Theorem SessionForm_tempos_range f t :
  t ∈ SessionForm.tempos f ↔
  SessionForm.checked f t = true ∧
  ∃ i : Z, (0 ≤ i ≤ 20)%Z ∧ t = (40 + 10 * i)%Z.
Proof.
  unfold SessionForm.tempos, SessionForm.tempoValues.
  rewrite list_elem_of_In, List.filter_In, <- list_elem_of_In, tempo_loop_elem.
  split.
  - intros [(i & ? & -> & ?) Hc]. split; [done|]. exists (Z.of_nat i). lia.
  - intros [Hc (i & ? & ->)]. split; [|done]. exists (Z.to_nat i). lia.
Qed.

Lemma SessionForm_tempos_range_witness :
  100 ∈ SessionForm.tempos form_session ∧ 120 ∈ SessionForm.tempos form_session.
Proof.
  split.
  - apply (SessionForm_tempos_range form_session 100).
    split; [reflexivity|]. exists 6. lia.
  - apply (SessionForm_tempos_range form_session 120).
    split; [reflexivity|]. exists 8. lia.
Defined.

Lemma SessionForm_saveBtn_click_unfold l f t_date t_save ev w c :
  objs w !! l = Some c →
  let card := SessionForm.push_session (SessionForm.new_session f c t_date) c in
  SessionForm.saveBtn_click l f t_date t_save ev w =
  Some (mkWorld (<[l := set_updatedAt t_save card]> (<[l := card]> (objs w)))
                (apply_op (op_save card None t_save ev) (idb w))
                (selectedFile w),
        match settle ev with
        | Resolved => Rendered
        | Rejected => Alert "Failed to save session."
        | Pending => Awaiting
        end).
Proof.
  intros Hl card. unfold SessionForm.saveBtn_click. rewrite Hl. simpl.
  fold card. set (w1 := mkWorld _ _ _).
  by rewrite (saveCard_unfold w1 _ card); [|by apply lookup_insert_eq].
Qed.

(** X14.  The Save Session handler, when its transaction completes,
    stores the card with the new session appended after the sessions the
    object had: the session carries the card's id, the date read and the
    ticked tempos; apart from the session list and [updatedAt] the stored
    record equals the object as it was; no payload is touched. *)
Theorem SessionForm_saveBtn_click_appends l f t_date t_save w c :
  objs w !! l = Some c →
  ∃ w' r s,
    SessionForm.saveBtn_click l f t_date t_save tx_complete w
      = Some (w', Rendered) ∧
    getCard (id c) (idb w') = Some r ∧
    objs w' !! l = Some r ∧
    sessions r = Some (default [] (sessions c) ++ [s]) ∧
    cardId s = id c ∧ date s = t_date ∧
    temposAchieved s = Some (SessionForm.tempos f) ∧
    set_updatedAt (updatedAt c) (set_sessions (sessions c) r) = c ∧
    updatedAt r = t_save ∧
    blobs (idb w') = blobs (idb w).
Proof.
  intros Hl. rewrite (SessionForm_saveBtn_click_unfold _ _ _ _ _ _ _ Hl).
  eexists _, _, (SessionForm.new_session f c t_date).
  split; [reflexivity|]. simpl. unfold getCard. simpl.
  rewrite !lookup_insert_eq. split; [reflexivity|]. split; [reflexivity|].
  do 4 (split; [reflexivity|]). split; [by destruct c|]. done.
Qed.

Lemma SessionForm_saveBtn_click_appends_witness :
  ∃ w' r s,
    SessionForm.saveBtn_click 0%nat form_session 20 21 tx_complete world_b
      = Some (w', Rendered) ∧
    getCard "a" (idb w') = Some r ∧
    objs w' !! 0%nat = Some r ∧
    sessions r = Some ([] ++ [s]) ∧
    cardId s = "a"%string ∧ date s = 20 ∧
    temposAchieved s = Some (SessionForm.tempos form_session) ∧
    set_updatedAt 9 (set_sessions (Some []) r) = card_a_saved ∧
    updatedAt r = 21 ∧
    blobs (idb w') = blobs (idb world_b).
Proof.
  apply (SessionForm_saveBtn_click_appends 0%nat form_session 20 21 world_b
           card_a_saved).
  reflexivity.
Defined.

Lemma all_tempos_push s c :
  all_tempos (SessionForm.push_session s c) =
  all_tempos c ++ default [] (temposAchieved s).
Proof.
  unfold all_tempos, SessionForm.push_session. simpl.
  destruct (sessions c) as [ss|]; simpl.
  - by rewrite map_app, concat_app; simpl; rewrite app_nil_r.
  - by rewrite app_nil_r.
Qed.

(** X15.  Appending a session never lowers the max tempo shown for a
    card: after the push it is the larger of the former max tempo and
    the largest tempo of the new session (0 when it records none). *)
Theorem maxTempo_push_session s c :
  maxTempo (SessionForm.push_session s c) =
  Z.max (maxTempo c) (Math_max_0 (default [] (temposAchieved s))).
Proof.
  by rewrite !maxTempo_Math_max_0, all_tempos_push, Math_max_0_app.
Qed.

(** X16.  Last write wins on the session list.  When two objects hold
    the same card and a session is saved through each, both transactions
    completing, the stored card holds the sessions the card had followed
    by the second session only: the session saved first is lost. *)
Theorem SessionForm_second_save_drops_first l1 l2 f1 f2 t1 t1' t2 t2' w c :
  l1 ≠ l2 →
  objs w !! l1 = Some c →
  objs w !! l2 = Some c →
  ∃ w1 w2 r,
    SessionForm.saveBtn_click l1 f1 t1 t1' tx_complete w = Some (w1, Rendered) ∧
    SessionForm.saveBtn_click l2 f2 t2 t2' tx_complete w1 = Some (w2, Rendered) ∧
    getCard (id c) (idb w2) = Some r ∧
    sessions r =
      Some (default [] (sessions c) ++ [SessionForm.new_session f2 c t2]).
Proof.
  intros Hne Hl1 Hl2.
  rewrite (SessionForm_saveBtn_click_unfold _ _ _ _ _ _ _ Hl1).
  eexists _, _, _. split; [reflexivity|].
  rewrite (SessionForm_saveBtn_click_unfold _ _ _ _ _ _ c);
    [|simpl; by rewrite !lookup_insert_ne].
  split; [reflexivity|]. simpl. unfold getCard. simpl.
  rewrite lookup_insert_eq. by split.
Qed.

Lemma SessionForm_second_save_drops_first_witness :
  ∃ w1 w2 r,
    SessionForm.saveBtn_click 0%nat form_session 20 21 tx_complete
      (mkWorld (<[1%nat := card_a_saved]> (objs world_b)) (idb world_b) None)
      = Some (w1, Rendered) ∧
    SessionForm.saveBtn_click 1%nat form_session 30 31 tx_complete w1
      = Some (w2, Rendered) ∧
    getCard "a" (idb w2) = Some r ∧
    sessions r = Some ([] ++ [SessionForm.new_session form_session card_a_saved 30]).
Proof.
  apply (SessionForm_second_save_drops_first 0%nat 1%nat form_session form_session
           20 21 30 31
           (mkWorld (<[1%nat := card_a_saved]> (objs world_b)) (idb world_b) None)
           card_a_saved); [discriminate|reflexivity|reflexivity].
Defined.

(** X17.  The Delete handler of the card view.  When the user declines
    nothing changes.  When the user confirms and the transaction
    completes, the card and its payload are gone, the list is shown, no
    stored card carries the deleted id (in a database where every card
    is stored under its id), and opening the id again falls back to the
    list.  When the transaction fails with an error nothing is caught:
    there is no alert and the database is unchanged. *)
Theorem delBtn_click_effects l w c :
  objs w !! l = Some c →
  (∀ ev, delBtn_click l false ev w = Some (w, Declined)) ∧
  (∃ w',
     delBtn_click l true tx_complete w
       = Some (w', DeletedShowsList (loadCards (idb w'))) ∧
     getCard (id c) (idb w') = None ∧
     getBlob (id c) (idb w') = None ∧
     (keyed (idb w) → ∀ c', c' ∈ getAllCards (idb w') → id c' ≠ id c) ∧
     viewCard (id c) w' = (w', ShowsList (loadCards (idb w')))) ∧
  (∃ w',
     delBtn_click l true tx_error w = Some (w', DeleteUnhandledRejection) ∧
     idb w' = idb w).
Proof.
  intros Hl. split; [done|]. unfold delBtn_click. rewrite Hl. simpl. split.
  - exists (mkWorld (objs w) (deleteCard_exec (id c) (idb w)) (selectedFile w)).
    split; [reflexivity|]. simpl.
    destruct (deleteCard_exec_lookup (id c) (idb w)) as [Hc Hb].
    split; [done|]. split; [done|]. split.
    + intros Hk c' [k Hc']%getAllCards_elem Hid.
      change (delete (id c) (cards (idb w)) !! k = Some c') in Hc'.
      destruct (decide (k = id c)) as [->|Hne].
      * pose proof (lookup_delete_eq (cards (idb w)) (id c)) as E. congruence.
      * pose proof (lookup_delete_ne (cards (idb w)) (id c) k) as E.
        rewrite E in Hc' by done. apply Hk in Hc'. congruence.
    + unfold viewCard. cbn [idb]. by rewrite Hc.
  - by eexists.
Qed.

Lemma delBtn_click_effects_witness :
  ∃ w',
    delBtn_click 0%nat true tx_complete world_b
      = Some (w', DeletedShowsList (loadCards (idb w'))) ∧
    getCard "a" (idb w') = None ∧
    getBlob "a" (idb w') = None.
Proof.
  destruct (delBtn_click_effects 0%nat world_b card_a_saved eq_refl)
    as (_ & (w' & H1 & H2 & H3 & _) & _).
  exists w'. repeat split; assumption.
Defined.

End Sessions.

(** ** Overlapping playbacks and the dispatch of a tick *)

Section PlaybackMore.

Import CardView.
Local Open Scope list_scope.

Implicit Types (a audio : Audio) (m : OnTime) (pos : Q).

(** X18.  A tick runs every registered monitor once on the new playhead
    position.  It pauses the element exactly when the end of some
    registered monitor is at or before the position, removes exactly
    those monitors, and keeps a paused element paused; the only calls it
    makes are reads of the playhead and [pause()] by registered
    monitors: a tick never seeks and never resumes playback. *)
Theorem tick_runs_registered_monitors pos a :
  closures_ok a →
  currentTime (tick pos a) = pos ∧
  paused (tick pos a)
    = paused a || existsb (λ m, js_le (endT m) pos) (timeupdate a) ∧
  timeupdate (tick pos a)
    = List.filter (λ m, negb (js_le (endT m) pos)) (timeupdate a) ∧
  closures_ok (tick pos a) ∧
  ∃ cs,
    calls (tick pos a) = calls a ++ cs ∧
    Forall (λ wc, (∃ m, m ∈ timeupdate a ∧ wc.1 = listener (uid m)) ∧
                  (wc.2 = GetCurrentTime ∨ wc.2 = Pause)) cs.
Proof.
  intros Hok. pose proof (closures_ok_tick pos a Hok) as Hok'.
  destruct Hok as [Hnd _]. rewrite tick_closed_form in * by done. simpl.
  do 3 (split; [done|]). split; [done|].
  exists (flat_map (onTime_calls pos) (timeupdate a)). split; [done|].
  apply Forall_forall. intros wc Hwc.
  apply list_elem_of_In, in_flat_map in Hwc as (m & Hm & Hin).
  apply list_elem_of_In in Hm. unfold onTime_calls in Hin.
  destruct (reached pos m); simpl in Hin.
  - destruct Hin as [<-|[<-|[]]]; (split; [by exists m|auto]).
  - destruct Hin as [<-|[]]; (split; [by exists m|auto]).
Qed.

Lemma tick_runs_registered_monitors_witness :
  paused (tick (29 # 10)
            (playTrimBtn_click card_a (Num 0) (Num 2) createAudio).1) = true ∧
  timeupdate (tick (29 # 10)
                (playTrimBtn_click card_a (Num 0) (Num 2) createAudio).1) = [].
Proof.
  destruct (tick_runs_registered_monitors (29 # 10)
              (playTrimBtn_click card_a (Num 0) (Num 2) createAudio).1)
    as (_ & Hp & Hl & _).
  - apply closures_ok_click, closures_ok_createAudio.
  - split; [rewrite Hp|rewrite Hl]; reflexivity.
Defined.

(** X19.  Monitors of overlapping playbacks are independent.  After two
    clicks with well-formed ranges on an element without monitors, a
    tick at or past the end of the first range but before the end of the
    second pauses the element: playback of the second range stops early,
    and only the second monitor stays registered. *)
Theorem earlier_monitor_pauses_later_playback card s1 e1 s2 e2 audio pos :
  timeupdate audio = [] →
  is_Some (trim card) →
  (or_zero s1 < or_zero e1)%Q →
  (or_zero s2 < or_zero e2)%Q →
  (or_zero e1 <= pos)%Q →
  (pos < or_zero e2)%Q →
  let a1 := (playTrimBtn_click card s1 e1 audio).1 in
  let a2 := (playTrimBtn_click card s2 e2 a1).1 in
  paused a2 = false ∧
  currentTime a2 = or_zero s2 ∧
  timeupdate a2 = [mkOnTime (closures audio) (or_zero e1);
                   mkOnTime (S (closures audio)) (or_zero e2)] ∧
  paused (tick pos a2) = true ∧
  timeupdate (tick pos a2) = [mkOnTime (S (closures audio)) (or_zero e2)].
Proof.
  intros Hm Ht H1 H2 Hle Hlt a1 a2. unfold a2, a1.
  rewrite (playTrimBtn_click_starts _ _ _ _ Ht H1). simpl.
  rewrite (playTrimBtn_click_starts _ _ _ _ Ht H2). simpl. rewrite Hm. simpl.
  do 3 (split; [done|]).
  rewrite tick_closed_form.
  - simpl. unfold reached. simpl.
    apply js_le_true in Hle. apply js_le_false in Hlt. by rewrite Hle, Hlt.
  - simpl. apply NoDup_cons. split; [|apply NoDup_singleton].
    rewrite list_elem_of_singleton. lia.
Qed.

Lemma earlier_monitor_pauses_later_playback_witness :
  let a1 := (playTrimBtn_click card_a (Num 0) (Num 2) createAudio).1 in
  let a2 := (playTrimBtn_click card_a (Num 0) (Num 4) a1).1 in
  paused a2 = false ∧
  currentTime a2 = 0%Q ∧
  timeupdate a2 = [mkOnTime 0 2; mkOnTime 1 4] ∧
  paused (tick 3 a2) = true ∧
  timeupdate (tick 3 a2) = [mkOnTime 1 4].
Proof.
  apply (earlier_monitor_pauses_later_playback card_a (Num 0) (Num 2) (Num 0)
           (Num 4) createAudio 3);
    [reflexivity|by eexists|reflexivity|reflexivity|discriminate|reflexivity].
Defined.

End PlaybackMore.

(** ** The schema *)

Section Schema.

Lemma ensure_store name keyPath (s : Schema) :
  (if bool_decide (is_Some (s !! name)) then Some s
   else createObjectStore name keyPath s) =
  Some (match s !! name with Some _ => s | None => <[name := keyPath]> s end).
Proof.
  unfold createObjectStore. destruct (s !! name) eqn:E.
  - by rewrite bool_decide_eq_true_2 by eauto.
  - by rewrite bool_decide_eq_false_2 by (by intros [? ?]).
Qed.

Lemma onupgradeneeded_unfold (s : Schema) :
  onupgradeneeded s =
  Some (let s1 := match s !! "cards" with
                  | Some _ => s
                  | None => <["cards" := Some "id"]> s
                  end in
        match s1 !! "blobs" with
        | Some _ => s1
        | None => <["blobs" := None]> s1
        end).
Proof.
  unfold onupgradeneeded. rewrite ensure_store. simpl. by rewrite ensure_store.
Qed.

(** X20.  The upgrade handler of [openDB] never fails and is idempotent:
    afterwards both stores exist, a store that existed is kept as it was
    (it is not created again), a missing [cards] store is created with
    key path [id] and a missing [blobs] store with out-of-line keys, and
    running the handler again changes nothing. *)
Theorem onupgradeneeded_creates_missing_stores (s : Schema) :
  ∃ s',
    onupgradeneeded s = Some s' ∧
    is_Some (s' !! "cards") ∧ is_Some (s' !! "blobs") ∧
    (∀ name o, s !! name = Some o → s' !! name = Some o) ∧
    (∀ name, name ≠ "cards" → name ≠ "blobs" → s' !! name = s !! name) ∧
    (s !! "cards" = None → s' !! "cards" = Some (Some "id")) ∧
    (s !! "blobs" = None → s' !! "blobs" = Some None) ∧
    onupgradeneeded s' = Some s'.
Proof.
  assert ("cards" ≠ "blobs") as Hcb by discriminate.
  assert ("blobs" ≠ "cards") as Hbc by discriminate.
  eexists. split; [apply onupgradeneeded_unfold|].
  rewrite onupgradeneeded_unfold. simpl. unfold Schema in *.
  destruct (s !! "cards") as [oc|] eqn:Hc; destruct (s !! "blobs") as [ob|] eqn:Hb;
    repeat (rewrite ?lookup_insert_eq, ?(lookup_insert_ne _ "cards" "blobs"),
              ?(lookup_insert_ne _ "blobs" "cards"), ?Hc, ?Hb by done);
    (do 2 (split; [by eauto|]));
    (split; [intros name o Hn;
             rewrite ?lookup_insert_ne by congruence; exact Hn|]);
    (split; [intros name Hn1 Hn2; by rewrite ?lookup_insert_ne by done|]);
    (split; [by intros; simplify_eq|]);
    (split; [by intros; simplify_eq|]); reflexivity.
Qed.

Lemma onupgradeneeded_creates_missing_stores_witness :
  ∃ s' : Schema,
    onupgradeneeded ∅ = Some s' ∧
    s' !! "cards" = Some (Some "id") ∧ s' !! "blobs" = Some None ∧
    onupgradeneeded s' = Some s'.
Proof.
  destruct (onupgradeneeded_creates_missing_stores ∅)
    as (s' & H & _ & _ & _ & _ & Hc & Hb & Hi).
  exists s'. split; [exact H|]. split; [apply Hc; reflexivity|].
  split; [apply Hb; reflexivity|exact Hi].
Defined.

End Schema.

(** ** The service worker *)

Section ServiceWorkerProps.

Import ServiceWorker.
Local Open Scope list_scope.

Implicit Types (net : string → option Response) (url u : string)
  (c : gmap string Response).

Lemma addAll_lookup net urls c c' :
  addAll net urls c = Some c' →
  ∀ u, u ∈ urls → is_Some (net u) ∧ c' !! u = net u.
Proof.
  unfold addAll. intros H. apply bind_Some in H as (rs & Hrs & [= <-]).
  apply mapM_Some in Hrs.
  assert (∀ urls rs,
            Forall2 (λ u y, (λ r, (u, r)) <$> net u = Some y) urls rs →
            ∀ c u, c !! u = net u →
                   foldl (λ c ur, <[ur.1 := ur.2]> c) c rs !! u = net u) as Hkeep.
  { clear. induction 1 as [|u0 y urls rs Hy _ IH]; intros c u Hc; [done|].
    simpl. apply IH. apply fmap_Some in Hy as (r & Hr & ->). simpl.
    destruct (decide (u0 = u)) as [->|Hne].
    - by rewrite lookup_insert_eq.
    - by rewrite lookup_insert_ne. }
  revert c. induction Hrs as [|u0 y urls rs Hy Hrs IH]; intros c u Hu.
  - by apply elem_of_nil in Hu.
  - simpl. apply elem_of_cons in Hu as [->|Hu]; [|by apply IH].
    pose proof Hy as Hy'. apply fmap_Some in Hy' as (r & Hr & ->). simpl.
    split; [by eexists|].
    apply (Hkeep urls rs Hrs). by rewrite lookup_insert_eq.
Qed.

Lemma oninstall_success net (cs cs' : list (string * gmap string Response)) :
  oninstall net cs = (cs', true) →
  ∃ i c',
    cs' !! i = Some (CACHE_NAME, c') ∧
    (∀ u, u ∈ urlsToCache → is_Some (net u) ∧ c' !! u = net u) ∧
    (∀ j nc, j ≠ i → cs' !! j = Some nc → nc ∈ cs ∨ nc.2 = ∅).
Proof.
  unfold oninstall, CacheStorage. cbv zeta.
  set (cs1 := match list_find (λ nc, nc.1 = CACHE_NAME) cs with
              | Some _ => cs
              | None => cs ++ [(CACHE_NAME, ∅)]
              end).
  assert (∀ nc, nc ∈ cs1 → nc ∈ cs ∨ nc.2 = ∅) as Hcs1.
  { intros nc. unfold cs1.
    destruct (list_find (λ nc : string * gmap string Response,
                           nc.1 = CACHE_NAME) cs); [by left|].
    intros [?|Hs]%elem_of_app; [by left|].
    apply list_elem_of_singleton in Hs as ->. by right. }
  destruct (list_find (λ nc : string * gmap string Response, nc.1 = CACHE_NAME)
                      cs1) as [[i [n c]]|] eqn:Hfind; [|intros ?; discriminate].
  destruct (addAll net urlsToCache c) as [c'|] eqn:Hadd;
    [|intros ?; discriminate].
  intros [= <-]. apply list_find_Some in Hfind as (Hi & _ & _).
  exists i, c'. split; [|split].
  - apply list_lookup_insert_eq. by eapply lookup_lt_Some.
  - by apply (addAll_lookup net urlsToCache c).
  - intros j nc Hne Hj. rewrite list_lookup_insert_ne in Hj by done.
    apply Hcs1. by eapply list_elem_of_lookup_2.
Qed.

(** X21.  After a successful install every precached URL is answered
    by the fetch handler from a cache, with the same response whatever
    the network does, so the app shell loads offline and a later change
    on the server is not seen.  When no cache held the URL before the
    install, the response is the one fetched at install time. *)
Theorem precached_url_served_from_cache net
    (cs cs' : list (string * gmap string Response)) url :
  oninstall net cs = (cs', true) →
  url ∈ urlsToCache →
  ∃ r,
    (∀ net', onfetch net' url cs' = Some r) ∧
    (caches_match url cs = None → net url = Some r).
Proof.
  intros Hinst Hurl.
  destruct (oninstall_success _ _ _ Hinst) as (i & c' & Hi & Hc' & Hothers).
  destruct (Hc' url Hurl) as [[r0 Hr0] Hlook].
  destruct (list_find_elem_of (λ nc : string * gmap string Response,
                                 is_Some (nc.2 !! url)) cs' (CACHE_NAME, c'))
    as [[j y] Hfind].
  { by eapply list_elem_of_lookup_2. }
  { simpl. rewrite Hlook, Hr0. by eexists. }
  pose proof Hfind as Hfind'.
  apply list_find_Some in Hfind' as (Hj & [r Hr] & _).
  exists r. split.
  - intros net'. unfold onfetch, caches_match. rewrite Hfind. simpl.
    by rewrite Hr.
  - intros Hnone. destruct (decide (j = i)) as [->|Hne].
    + rewrite Hi in Hj. injection Hj as <-. simpl in Hr. congruence.
    + exfalso. destruct (Hothers j y Hne Hj) as [Hin|Hempty].
      * unfold caches_match in Hnone.
        destruct (list_find_elem_of (λ nc : string * gmap string Response,
                                       is_Some (nc.2 !! url)) cs y Hin)
          as [[j' y'] Hf']; [by eexists|].
        rewrite Hf' in Hnone. simpl in Hnone.
        apply list_find_Some in Hf' as (_ & [r' Hr'] & _). congruence.
      * rewrite Hempty, lookup_empty in Hr. done.
Qed.

Lemma precached_url_served_from_cache_witness :
  ∃ r,
    (∀ net', onfetch net' "/app.js"
               (oninstall (λ _, Some [Byte.x2f]) []).1 = Some r) ∧
    (caches_match "/app.js" [] = None → Some [Byte.x2f] = Some r).
Proof.
  apply (precached_url_served_from_cache (λ _, Some [Byte.x2f]) []
           (oninstall (λ _, Some [Byte.x2f]) []).1 "/app.js").
  - reflexivity.
  - unfold urlsToCache. do 2 right. left.
Defined.

End ServiceWorkerProps.
